(** * Shallow embedding of the mds registry service and libmdsserver

    Sources: src/src/libmdsserver/client-list.c, linked-list.c,
    src/src/mds-registry.c and src/src/mds.c.

    Conventions of the model:
    - [size_t], [ssize_t] and [uint64_t] values are [Z]; where the C code
      does arithmetic that can wrap on a 64-bit [size_t], the wrap is written
      out with [wrap64].
    - Every [malloc]/[realloc] outcome is supplied by the caller as a [bool]
      (true: the allocator returned a block, false: it returned NULL). *)

From Stdlib Require Import ZArith String Ascii List Bool Lia Permutation.
Import ListNotations.
Open Scope Z_scope.

(** ** Machine arithmetic *)

Definition wrap64 (z : Z) : Z := z mod 2 ^ 64.

(** [to_power_of_two], identical in client-list.c and linked-list.c
    (the [__WORDSIZE == 64] variant). *)
Definition to_power_of_two (value : Z) : Z :=
  let value := wrap64 (value - 1) in
  let value := Z.lor value (Z.shiftr value 1) in
  let value := Z.lor value (Z.shiftr value 2) in
  let value := Z.lor value (Z.shiftr value 4) in
  let value := Z.lor value (Z.shiftr value 8) in
  let value := Z.lor value (Z.shiftr value 16) in
  let value := Z.lor value (Z.shiftr value 32) in
  wrap64 (value + 1).

Definition is_pow2 (n : Z) : Prop := exists k, 0 <= k /\ n = 2 ^ k.

Definition smear_upto (v i : Z) (n : nat) : bool :=
  existsb (fun d => Z.testbit v (i + Z.of_nat d)) (seq 0 n).

(** The bit-smearing part of [to_power_of_two]. *)
Definition smear (value : Z) : Z :=
  let value := Z.lor value (Z.shiftr value 1) in
  let value := Z.lor value (Z.shiftr value 2) in
  let value := Z.lor value (Z.shiftr value 4) in
  let value := Z.lor value (Z.shiftr value 8) in
  let value := Z.lor value (Z.shiftr value 16) in
  Z.lor value (Z.shiftr value 32).

(** ** Client lists (client-list.c) *)
Module ClientList.

Definition CLIENT_LIST_DEFAULT_INITIAL_CAPACITY : Z := 8.

(** [client_list_t]: [clients] holds the [size] meaningful elements of the
    [capacity]-element array (the remaining slots are indeterminate). *)
Record client_list := mk_client_list {
  capacity : Z;
  size : Z;
  clients : list Z
}.

(** [client_list_create]: [ok] is the outcome of [xmalloc]; on failure the
    function returns -1 and the list must be destroyed ([None]). *)
Definition client_list_create (ok : bool) (capacity0 : Z) : option client_list :=
  let capacity1 :=
    if capacity0 =? 0 then CLIENT_LIST_DEFAULT_INITIAL_CAPACITY else capacity0 in
  let capacity2 := to_power_of_two capacity1 in
  if ok then Some (mk_client_list capacity2 0 []) else None.

(** [client_list_add]: returns the C return value and the list. *)
Definition client_list_add (ok : bool) (this : client_list) (client : Z)
  : Z * client_list :=
  if size this =? capacity this then
    let cap := wrap64 (Z.shiftl (capacity this) 1) in
    if ok
    then (0, mk_client_list cap (wrap64 (size this + 1)) (clients this ++ [client]))
    else (-1, mk_client_list (Z.shiftr cap 1) (size this) (clients this))
  else (0, mk_client_list (capacity this) (wrap64 (size this + 1))
                          (clients this ++ [client])).

(** The number of elements a call of [client_list_add] asks [xrealloc] for,
    if it reallocates. *)
Definition client_list_add_request (this : client_list) : option Z :=
  if size this =? capacity this
  then Some (wrap64 (Z.shiftl (capacity this) 1)) else None.

Fixpoint remove_first (x : Z) (l : list Z) : option (list Z) :=
  match l with
  | [] => None
  | y :: l' => if y =? x then Some l'
               else match remove_first x l' with
                    | Some r => Some (y :: r)
                    | None => None
                    end
  end.

(** [client_list_remove]: [memmove] of the tail, then a halving [xrealloc]
    when [size << 1 <= capacity]; a failed shrink restores the capacity
    with [<<= 1]. *)
Definition client_list_remove (ok : bool) (this : client_list) (client : Z)
  : client_list :=
  match remove_first client (clients this) with
  | None => this
  | Some rest =>
      let sz := size this - 1 in
      if wrap64 (Z.shiftl sz 1) <=? capacity this then
        let cap := Z.shiftr (capacity this) 1 in
        if ok then mk_client_list cap sz rest
        else mk_client_list (wrap64 (Z.shiftl cap 1)) sz rest
      else mk_client_list (capacity this) sz rest
  end.

Definition client_list_remove_request (this : client_list) (client : Z)
  : option Z :=
  match remove_first client (clients this) with
  | None => None
  | Some _ =>
      if wrap64 (Z.shiftl (size this - 1) 1) <=? capacity this
      then Some (Z.shiftr (capacity this) 1) else None
  end.

(** A sequence of operations on one list, each with its allocator outcome. *)
Inductive cl_op :=
| OpAdd (client : Z) (ok : bool)
| OpRemove (client : Z) (ok : bool).

Definition cl_step (l : client_list) (op : cl_op) : client_list :=
  match op with
  | OpAdd c ok => snd (client_list_add ok l c)
  | OpRemove c ok => client_list_remove ok l c
  end.

Fixpoint cl_run (l : client_list) (ops : list cl_op) : client_list :=
  match ops with
  | [] => l
  | op :: ops' => cl_run (cl_step l op) ops'
  end.

(** An allocation request of [n] elements of 8 bytes answered [ok]: the
    allocator refuses zero-sized requests (glibc's [realloc(p, 0)] returns
    NULL) and requests of [2^61] elements or more (their byte count does
    not fit a [size_t]). *)
Definition alloc_sane (n : Z) (ok : bool) : bool :=
  negb ok || ((0 <? n) && (n <? 2 ^ 61)).

Definition request_sane (req : option Z) (ok : bool) : bool :=
  match req with
  | None => true
  | Some n => alloc_sane n ok
  end.

Fixpoint sane_trace (l : client_list) (ops : list cl_op) : bool :=
  match ops with
  | [] => true
  | op :: ops' =>
      let req := match op with
                 | OpAdd _ _ => client_list_add_request l
                 | OpRemove c _ => client_list_remove_request l c
                 end in
      let ok := match op with OpAdd _ ok | OpRemove _ ok => ok end in
      request_sane req ok && sane_trace (cl_step l op) ops'
  end.

(** The number of elements [client_list_create] asks [xmalloc] for. *)
Definition client_list_create_request (capacity0 : Z) : Z :=
  to_power_of_two
    (if capacity0 =? 0 then CLIENT_LIST_DEFAULT_INITIAL_CAPACITY else capacity0).

(** *** Marshalling ([buf_set_next] / [buf_get_next] on a little-endian
    x86-64 host: [int] is 4 bytes, [size_t] and [uint64_t] 8 bytes).
    Bytes are [Z] values in [0, 256). *)

(** The version word written first; [client_list_unmarshal] skips it
    without reading it. *)
Definition CLIENT_LIST_T_VERSION : Z := 0.

Fixpoint le_bytes (n : nat) (z : Z) : list Z :=
  match n with
  | O => []
  | S n' => z mod 256 :: le_bytes n' (z / 256)
  end.

Fixpoint le_value (bs : list Z) : Z :=
  match bs with
  | [] => 0
  | b :: bs' => b + 256 * le_value bs'
  end.

(** Read [n] bytes from the buffer; [None] when the buffer is shorter
    (the C code would read past its end). *)
Fixpoint read_bytes (n : nat) (buf : list Z) : option (list Z * list Z) :=
  match n with
  | O => Some ([], buf)
  | S n' =>
      match buf with
      | [] => None
      | b :: buf' =>
          match read_bytes n' buf' with
          | Some (bs, rest) => Some (b :: bs, rest)
          | None => None
          end
      end
  end.

Fixpoint read_u64s (k : nat) (buf : list Z) : option (list Z) :=
  match k with
  | O => Some []
  | S k' =>
      match read_bytes 8 buf with
      | Some (w, rest) =>
          match read_u64s k' rest with
          | Some ws => Some (le_value w :: ws)
          | None => None
          end
      | None => None
      end
  end.

(** [client_list_marshal_size] *)
Definition client_list_marshal_size (this : client_list) : Z :=
  2 * 8 + size this * 8 + 4.

(** [client_list_marshal] *)
Definition client_list_marshal (this : client_list) : list Z :=
  le_bytes 4 CLIENT_LIST_T_VERSION ++
  le_bytes 8 (capacity this) ++
  le_bytes 8 (size this) ++
  concat (map (le_bytes 8) (clients this)).

(** [client_list_unmarshal]: [ok] is the outcome of the [malloc] of the
    [capacity]-element array. *)
Definition client_list_unmarshal (ok : bool) (data : list Z) : option client_list :=
  match read_bytes 4 data with
  | None => None
  | Some (_, data1) =>
      match read_bytes 8 data1 with
      | None => None
      | Some (cap, data2) =>
          match read_bytes 8 data2 with
          | None => None
          | Some (sz, data3) =>
              if ok then
                match read_u64s (Z.to_nat (le_value sz)) data3 with
                | Some cl => Some (mk_client_list (le_value cap) (le_value sz) cl)
                | None => None
                end
              else None
          end
      end
  end.

Definition cl_inv (l : client_list) : Prop :=
  0 <= size l <= capacity l /\
  size l = Z.of_nat (List.length (clients l)) /\
  ((is_pow2 (capacity l) /\ capacity l < 2 ^ 61) \/ (capacity l = 0 /\ size l = 0)).

(** A client list as the C structure can hold it: [capacity] and [size]
    fit a [size_t], every client ID fits a [uint64_t], and [clients] holds
    the [size] elements in use. *)
Definition cl_wf (l : client_list) : Prop :=
  0 <= capacity l < 2 ^ 64 /\
  size l = Z.of_nat (length (clients l)) /\ size l < 2 ^ 64 /\
  Forall (fun x => 0 <= x < 2 ^ 64) (clients l).

End ClientList.

(** ** Indexed doubly linked lists (linked-list.c) *)
Module LinkedList.

(** Accesses to the backing arrays.  An access outside an array (a
    negative index, an index past its allocation, or any index of a NULL
    array) is undefined behaviour in C; the model stops there with
    [Fault i], [i] being the index used. *)
Inductive res (A : Type) :=
| Ok (a : A)
| Fault (idx : Z).
Arguments Ok {A} a.
Arguments Fault {A} idx.

Definition bind {A B} (m : res A) (k : A -> res B) : res B :=
  match m with
  | Ok a => k a
  | Fault i => Fault i
  end.

Notation "x <- m ;; k" := (bind m (fun x => k))
  (at level 61, m at next level, right associativity).

Definition in_bounds (a : list Z) (i : Z) : bool :=
  (0 <=? i) && (i <? Z.of_nat (length a)).

Definition arr_get (a : list Z) (i : Z) : res Z :=
  if in_bounds a i then Ok (nth (Z.to_nat i) a 0) else Fault i.

Definition arr_set (a : list Z) (i v : Z) : res (list Z) :=
  if in_bounds a i
  then Ok (firstn (Z.to_nat i) a ++ v :: skipn (S (Z.to_nat i)) a)
  else Fault i.

(** A fresh [malloc]ed array of [n] elements; its contents are
    indeterminate in C and are 0 here. *)
Definition fresh_array (n : Z) : list Z := repeat 0 (Z.to_nat n).

(** [realloc] of an array to [n] elements: on success the first elements
    are kept; on failure the C code stores the NULL result in the field,
    modelled as an array with no accessible slot. *)
Definition arr_realloc (ok : bool) (a : list Z) (n : Z) : list Z :=
  if ok then firstn (Z.to_nat n) a ++ repeat 0 (Z.to_nat n - length a)
  else [].

(** Modelled from the spec: [LINKED_LIST_UNUSED], defined in
    linked-list.h (not present), is the distinguished negative value -1. *)
Definition LINKED_LIST_UNUSED : Z := -1.

Definition LINKED_LIST_DEFAULT_INITIAL_CAPACITY : Z := 128.

(** [linked_list_t] *)
Record linked_list := mk_linked_list {
  capacity : Z;
  end_ : Z;
  reuse_head : Z;
  edge : Z;
  reusable : list Z;
  values : list Z;
  next : list Z;
  previous : list Z
}.

Definition set_capacity (t : linked_list) (v : Z) : linked_list :=
  mk_linked_list v (end_ t) (reuse_head t) (edge t) (reusable t) (values t) (next t) (previous t).
Definition set_end (t : linked_list) (v : Z) : linked_list :=
  mk_linked_list (capacity t) v (reuse_head t) (edge t) (reusable t) (values t) (next t) (previous t).
Definition set_reuse_head (t : linked_list) (v : Z) : linked_list :=
  mk_linked_list (capacity t) (end_ t) v (edge t) (reusable t) (values t) (next t) (previous t).
Definition set_reusable (t : linked_list) (a : list Z) : linked_list :=
  mk_linked_list (capacity t) (end_ t) (reuse_head t) (edge t) a (values t) (next t) (previous t).
Definition set_values (t : linked_list) (a : list Z) : linked_list :=
  mk_linked_list (capacity t) (end_ t) (reuse_head t) (edge t) (reusable t) a (next t) (previous t).
Definition set_next (t : linked_list) (a : list Z) : linked_list :=
  mk_linked_list (capacity t) (end_ t) (reuse_head t) (edge t) (reusable t) (values t) a (previous t).
Definition set_previous (t : linked_list) (a : list Z) : linked_list :=
  mk_linked_list (capacity t) (end_ t) (reuse_head t) (edge t) (reusable t) (values t) (next t) a.

(** [linked_list_create], with every [malloc] succeeding. *)
Definition linked_list_create (capacity0 : Z) : res linked_list :=
  let capacity1 :=
    if capacity0 =? 0 then LINKED_LIST_DEFAULT_INITIAL_CAPACITY else capacity0 in
  let cap := to_power_of_two capacity1 in
  let t := mk_linked_list cap 1 0 0 (fresh_array cap) (fresh_array cap)
                          (fresh_array cap) (fresh_array cap) in
  vs <- arr_set (values t) (edge t) 0 ;;
  ns <- arr_set (next t) (edge t) (edge t) ;;
  ps <- arr_set (previous t) (edge t) (edge t) ;;
  Ok (set_previous (set_next (set_values t vs) ns) ps).

(** [linked_list_get_next]: [oks] lists the outcomes of the four
    [realloc]s, in order (missing entries succeed). *)
Definition linked_list_get_next (oks : list bool) (this : linked_list)
  : res (Z * linked_list) :=
  if 0 <? reuse_head this then
    let rh := reuse_head this - 1 in
    node <- arr_get (reusable this) rh ;;
    Ok (node, set_reuse_head this rh)
  else if end_ this =? capacity this then
    let cap := wrap64 (Z.shiftl (capacity this) 1) in
    let t := set_capacity this cap in
    let ok i := nth i oks true in
    let t := set_values t (arr_realloc (ok 0%nat) (values t) cap) in
    if negb (ok 0%nat) then Ok (LINKED_LIST_UNUSED, t) else
    let t := set_next t (arr_realloc (ok 1%nat) (next t) cap) in
    if negb (ok 1%nat) then Ok (LINKED_LIST_UNUSED, t) else
    let t := set_previous t (arr_realloc (ok 2%nat) (previous t) cap) in
    if negb (ok 2%nat) then Ok (LINKED_LIST_UNUSED, t) else
    let t := set_reusable t (arr_realloc (ok 3%nat) (reusable t) cap) in
    if negb (ok 3%nat) then Ok (LINKED_LIST_UNUSED, t) else
    Ok (end_ t, set_end t (end_ t + 1))
  else Ok (end_ this, set_end this (end_ this + 1)).

(** [linked_list_insert_after] *)
Definition linked_list_insert_after (oks : list bool) (this : linked_list)
    (value predecessor : Z) : res (Z * linked_list) :=
  p <- linked_list_get_next oks this ;;
  let '(node, t) := p in
  vs <- arr_set (values t) node value ;; let t := set_values t vs in
  np <- arr_get (next t) predecessor ;;
  ns <- arr_set (next t) node np ;; let t := set_next t ns in
  ns <- arr_set (next t) predecessor node ;; let t := set_next t ns in
  ps <- arr_set (previous t) node predecessor ;; let t := set_previous t ps in
  nn <- arr_get (next t) node ;;
  ps <- arr_set (previous t) nn node ;; let t := set_previous t ps in
  Ok (node, t).

(** [linked_list_insert_before] *)
Definition linked_list_insert_before (oks : list bool) (this : linked_list)
    (value successor : Z) : res (Z * linked_list) :=
  p <- linked_list_get_next oks this ;;
  let '(node, t) := p in
  vs <- arr_set (values t) node value ;; let t := set_values t vs in
  ns <- arr_get (next t) successor ;;
  ps <- arr_set (previous t) node ns ;; let t := set_previous t ps in
  ps <- arr_set (previous t) successor node ;; let t := set_previous t ps in
  ns <- arr_set (next t) node successor ;; let t := set_next t ns in
  pn <- arr_get (previous t) node ;;
  ns <- arr_set (next t) pn node ;; let t := set_next t ns in
  Ok (node, t).

(** The [while] loop of [linked_list_pack] that skips unused slots. *)
Fixpoint pack_find_head (fuel : nat) (this : linked_list) (head : Z) : res Z :=
  match fuel with
  | O => Ok head
  | S fuel' =>
      if head =? end_ this then Ok head
      else
        n <- arr_get (next this) head ;;
        if n =? LINKED_LIST_UNUSED then pack_find_head fuel' this (head + 1)
        else Ok head
  end.

(** The traversal [for (node = head; (node != head) || (i == 0); i++)]
    copying the values into [vals]; a run that does not return to [head]
    faults when it writes past [vals], which [fuel] (one more than the
    length of [vals]) reaches first. *)
Fixpoint pack_copy (fuel : nat) (this : linked_list) (head node i : Z) (vals : list Z)
  : res (list Z) :=
  match fuel with
  | O => Fault i
  | S fuel' =>
      if negb (node =? head) || (i =? 0) then
        v <- arr_get (values this) node ;;
        vals <- arr_set vals i v ;;
        node <- arr_get (next this) node ;;
        pack_copy fuel' this head node (i + 1) vals
      else Ok vals
  end.

Fixpoint set_range (a : list Z) (f : Z -> Z) (i : Z) (count : nat) : res (list Z) :=
  match count with
  | O => Ok a
  | S c => a <- arr_set a i (f i) ;; set_range a f (i + 1) c
  end.

(** [linked_list_pack]: [oks] lists the outcomes of the [malloc]s of
    [vals], [new_next], [new_previous] and [new_reusable]. *)
Definition linked_list_pack (oks : list bool) (this : linked_list)
  : res (Z * linked_list) :=
  let size := wrap64 (end_ this - reuse_head this) in
  let cap := to_power_of_two size in
  let ok i := nth i oks true in
  if negb (ok 0%nat) then Ok (-1, this) else
  let vals := fresh_array cap in
  head <- pack_find_head (S (Z.to_nat (end_ this))) this 0 ;;
  vals <- (if negb (head =? end_ this)
           then pack_copy (S (Z.to_nat cap)) this head head 0 vals
           else Ok vals) ;;
  let t :=
    if negb (cap =? capacity this) then
      if negb (ok 1%nat) then None else
      if negb (ok 2%nat) then None else
      if negb (ok 3%nat) then None else
      Some (set_reusable (set_previous (set_next this (fresh_array cap))
                                       (fresh_array cap)) (fresh_array cap))
    else Some this in
  match t with
  | None => Ok (-1, this)
  | Some t =>
      ns <- set_range (next t) (fun i => i + 1) 0 (Z.to_nat size) ;;
      ns <- arr_set ns (size - 1) 0 ;; let t := set_next t ns in
      ps <- set_range (previous t) (fun i => i - 1) 1 (Z.to_nat (size - 1)) ;;
      ps <- arr_set ps 0 (size - 1) ;; let t := set_previous t ps in
      let t := set_values t vals in
      let t := set_end t size in
      let t := set_reuse_head t 0 in
      Ok (0, t)
  end.

(** The link invariant of the spec, checked slot by slot: every in-use
    slot [s < end] ([next[s] != UNUSED]) has [next[prev[s]] = s] and
    [prev[next[s]] = s]. *)
Definition slot_linked (t : linked_list) (s : Z) : bool :=
  match arr_get (next t) s, arr_get (previous t) s with
  | Ok n, Ok p =>
      if n =? LINKED_LIST_UNUSED then true
      else match arr_get (next t) p, arr_get (previous t) n with
           | Ok np, Ok pn => (np =? s) && (pn =? s)
           | _, _ => false
           end
  | _, _ => false
  end.

Definition links_ok (t : linked_list) : bool :=
  forallb (slot_linked t) (map Z.of_nat (seq 0 (Z.to_nat (end_ t)))).

(** The live values in traversal order from the sentinel slot. *)
Fixpoint walk (fuel : nat) (t : linked_list) (node : Z) : list Z :=
  match fuel with
  | O => []
  | S f =>
      if node =? 0 then []
      else match arr_get (values t) node, arr_get (next t) node with
           | Ok v, Ok n => v :: walk f t n
           | _, _ => []
           end
  end.

Definition traversal (t : linked_list) : list Z :=
  match arr_get (next t) 0 with
  | Ok n => walk (Z.to_nat (end_ t)) t n
  | Fault _ => []
  end.

(** [linked_list_unuse] *)
Definition linked_list_unuse (this : linked_list) (node : Z) : res (Z * linked_list) :=
  if node <? 0 then Ok (node, this) else
  rs <- arr_set (reusable this) (reuse_head this) node ;;
  let t := set_reuse_head (set_reusable this rs) (reuse_head this + 1) in
  ns <- arr_set (next t) node LINKED_LIST_UNUSED ;; let t := set_next t ns in
  ps <- arr_set (previous t) node LINKED_LIST_UNUSED ;; let t := set_previous t ps in
  Ok (node, t).

(** [linked_list_remove_after] *)
Definition linked_list_remove_after (this : linked_list) (predecessor : Z)
  : res (Z * linked_list) :=
  node <- arr_get (next this) predecessor ;;
  nn <- arr_get (next this) node ;;
  ns <- arr_set (next this) predecessor nn ;; let t := set_next this ns in
  nn <- arr_get (next t) node ;;
  ps <- arr_set (previous t) nn predecessor ;; let t := set_previous t ps in
  linked_list_unuse t node.

(** [linked_list_remove_before] *)
Definition linked_list_remove_before (this : linked_list) (successor : Z)
  : res (Z * linked_list) :=
  node <- arr_get (previous this) successor ;;
  pn <- arr_get (previous this) node ;;
  ps <- arr_set (previous this) successor pn ;; let t := set_previous this ps in
  pn <- arr_get (previous t) node ;;
  ns <- arr_set (next t) pn successor ;; let t := set_next t ns in
  linked_list_unuse t node.

(** [linked_list_remove] *)
Definition linked_list_remove (this : linked_list) (node : Z) : res linked_list :=
  p <- arr_get (previous this) node ;;
  n <- arr_get (next this) node ;;
  ns <- arr_set (next this) p n ;; let t := set_next this ns in
  n <- arr_get (next t) node ;;
  p <- arr_get (previous t) node ;;
  ps <- arr_set (previous t) n p ;; let t := set_previous t ps in
  r <- linked_list_unuse t node ;;
  Ok (snd r).

(** *** The shape of a list

    [ring] lists the slots after the sentinel 0 in [next] order; the
    consecutive slots of [0 :: ring ++ [0]] are linked both ways. *)
Fixpoint linked (ns ps : list Z) (path : list Z) : Prop :=
  match path with
  | a :: ((b :: _) as rest) =>
      nth (Z.to_nat a) ns 0 = b /\ nth (Z.to_nat b) ps 0 = a /\ linked ns ps rest
  | _ => True
  end.

(** [t] holds the ring [0 :: ring] of in-use slots with the values
    [vals]: every slot below [end] off the ring is unused, the first
    [reuse_head] entries of [reusable] are distinct unused slots, and the
    four arrays have [capacity] elements. *)
Definition ll_repr (t : linked_list) (ring vals : list Z) : Prop :=
  NoDup (0 :: ring) /\
  Forall (fun s => 0 <= s < end_ t) (0 :: ring) /\
  linked (next t) (previous t) (0 :: ring ++ [0]) /\
  map (fun s => nth (Z.to_nat s) (values t) 0) ring = vals /\
  (forall s, 0 <= s < end_ t -> ~ In s (0 :: ring) ->
             nth (Z.to_nat s) (next t) 0 = LINKED_LIST_UNUSED) /\
  0 <= reuse_head t /\
  Forall (fun s => 0 <= s < end_ t /\ ~ In s (0 :: ring))
         (firstn (Z.to_nat (reuse_head t)) (reusable t)) /\
  NoDup (firstn (Z.to_nat (reuse_head t)) (reusable t)) /\
  (Z.to_nat (reuse_head t) <= length (reusable t))%nat /\
  end_ t <= capacity t /\ capacity t < 2 ^ 62 /\
  length (values t) = Z.to_nat (capacity t) /\
  length (next t) = Z.to_nat (capacity t) /\
  length (previous t) = Z.to_nat (capacity t) /\
  length (reusable t) = Z.to_nat (capacity t).

(** The ring 0 -> 1 -> 2 -> 0 (values 10, 20) in a list of capacity 4. *)
Definition ll_three : linked_list :=
  mk_linked_list 4 3 0 0 [0; 0; 0; 0] [0; 10; 20; 0] [1; 2; 0; 0] [2; 0; 1; 0].

(** The list made by [linked_list_create(0)] (capacity 128) after one
    [linked_list_insert_after] of 10 behind the sentinel. *)
Definition ll_one : res linked_list :=
  t0 <- linked_list_create 0 ;;
  p <- linked_list_insert_after [] t0 10 0 ;;
  Ok (snd p).

End LinkedList.

(** ** The registry server (mds-registry.c) *)
Module Registry.
Import ClientList.

Definition nl : string := String (ascii_of_nat 10) EmptyString.

(** *** C strings and libc helpers *)

(** [startswith(str, prefix)] *)
Definition startswith (str pre : string) : bool := String.prefix pre str.

(** [str + strlen(prefix)] *)
Definition after (str pre : string) : string :=
  substring (String.length pre) (String.length str - String.length pre) str.

(** [strchr(str, c) != NULL] *)
Fixpoint has_char (c : ascii) (str : string) : bool :=
  match str with
  | EmptyString => false
  | String d str' => Ascii.eqb c d || has_char c str'
  end.

Definition is_digit (c : ascii) : bool :=
  let n := nat_of_ascii c in (48 <=? n)%nat && (n <=? 57)%nat.

Definition is_space (c : ascii) : bool :=
  let n := nat_of_ascii c in (n =? 32)%nat || ((9 <=? n)%nat && (n <=? 13)%nat).

Fixpoint atoll_digits (str : string) (acc : Z) : Z :=
  match str with
  | String c str' =>
      if is_digit c then atoll_digits str' (acc * 10 + Z.of_nat (nat_of_ascii c - 48))
      else acc
  | EmptyString => acc
  end.

(** [atoll]: leading white space, an optional sign, then decimal digits. *)
Fixpoint atoll (str : string) : Z :=
  match str with
  | String c str' =>
      if is_space c then atoll str'
      else if Ascii.eqb c "-"%char then - atoll_digits str' 0
      else if Ascii.eqb c "+"%char then atoll_digits str' 0
      else atoll_digits str 0
  | EmptyString => 0
  end.

Fixpoint dec_digits (fuel : nat) (n : Z) (acc : string) : string :=
  match fuel with
  | O => acc
  | S f =>
      let acc := String (ascii_of_nat (48 + Z.to_nat (n mod 10))) acc in
      if n <? 10 then acc else dec_digits f (n / 10) acc
  end.

(** [printf]'s [%d]/[%u] conversion of an integer. *)
Definition dec (n : Z) : string :=
  if n <? 0 then String "-"%char (dec_digits 64 (- n) EmptyString)
  else dec_digits 64 n EmptyString.

(** *** Heap, hash table and server state *)

(** Heap objects the registry allocates: key strings and client lists. *)
Inductive obj :=
| OStr (s : string)
| OList (l : client_list).

(** [reg_table] maps key addresses to value addresses, in the table's
    iteration order; [heap] holds the live allocations. *)
Record reg_state := mk_reg_state {
  heap : list (Z * obj);
  next_addr : Z;
  reg_table : list (Z * Z);
  message_id : Z
}.

Definition lookup_obj (h : list (Z * obj)) (a : Z) : option obj :=
  match find (fun p => fst p =? a) h with
  | Some (_, o) => Some o
  | None => None
  end.

Definition key_string (h : list (Z * obj)) (a : Z) : option string :=
  match lookup_obj h a with
  | Some (OStr str) => Some str
  | _ => None
  end.

Definition heap_free (h : list (Z * obj)) (a : Z) : list (Z * obj) :=
  filter (fun p => negb (fst p =? a)) h.

Definition heap_set (h : list (Z * obj)) (a : Z) (o : obj) : list (Z * obj) :=
  (a, o) :: heap_free h a.

Definition ENOMEM : Z := 12.

(** Modelled from the spec: [hash_table_put] of hash-table.c (not present).
    Keys are compared with [string_comparator], i.e. by the strings they
    point to.  An existing key has its value replaced and the previous
    value returned; a new key is inserted and 0 is returned with [errno]
    0; when the table cannot grow ([ok = false]) 0 is returned with
    [errno] set and the table is unchanged.  Returns
    (return value, errno, table). *)
Definition hash_table_put (ok : bool) (h : list (Z * obj)) (t : list (Z * Z))
    (key value : Z) : Z * Z * list (Z * Z) :=
  let ks := key_string h key in
  match find (fun e => match key_string h (fst e), ks with
                       | Some a, Some b => String.eqb a b
                       | _, _ => false
                       end) t with
  | Some (k, old) =>
      (old, 0, map (fun e => if fst e =? k then (k, value) else e) t)
  | None => if ok then (0, 0, t ++ [(key, value)]) else (0, ENOMEM, t)
  end.

(** Modelled from the spec: [hash_table_get] for a string key (0 when
    absent). *)
Definition hash_table_get (h : list (Z * obj)) (t : list (Z * Z)) (command : string) : Z :=
  match find (fun e => match key_string h (fst e) with
                       | Some a => String.eqb a command
                       | None => false
                       end) t with
  | Some (_, v) => v
  | None => 0
  end.

Definition alloc (s : reg_state) (o : obj) : Z * reg_state :=
  let a := next_addr s in
  (a, mk_reg_state ((a, o) :: heap s) (a + 1) (reg_table s) (message_id s)).

Definition with_heap (s : reg_state) (h : list (Z * obj)) : reg_state :=
  mk_reg_state h (next_addr s) (reg_table s) (message_id s).

Definition with_table (s : reg_state) (t : list (Z * Z)) : reg_state :=
  mk_reg_state (heap s) (next_addr s) t (message_id s).

(** *** [registry_action_add]

    [oks] lists the allocator outcomes in the order the code asks:
    [malloc] of the list, [strdup] of the command, the [xmalloc] of
    [client_list_create], the [xrealloc] of [client_list_add] (only asked
    when the list is full) and the growth of [hash_table_put]; missing
    entries succeed.  [command] is the command string the payload holds.
    Returns the C return value and the new state. *)
Definition registry_action_add (oks : list bool) (has_key : bool)
    (command : string) (client : Z) (s : reg_state) : Z * reg_state :=
  let ok i := nth i oks true in
  if has_key then
    let address := hash_table_get (heap s) (reg_table s) command in
    match lookup_obj (heap s) address with
    | Some (OList l) =>
        let '(rc, l') := client_list_add (ok 3%nat) l client in
        let s := with_heap s (heap_set (heap s) address (OList l')) in
        if rc <? 0 then (-1, s) else (0, s)
    | _ => (-1, s)
    end
  else
    if negb (ok 0%nat) then (-1, s) else
    let '(list_addr, s) := alloc s (OList (mk_client_list 0 0 [])) in
    if negb (ok 1%nat)
    then (-1, with_heap s (heap_free (heap s) list_addr)) else
    let '(command_key, s) := alloc s (OStr command) in
    let cleanup (s : reg_state) :=
      with_heap s (heap_free (heap_free (heap s) list_addr) command_key) in
    match client_list_create (ok 2%nat) 1 with
    | None => (-1, cleanup s)
    | Some l =>
        let '(rc, l) := client_list_add (ok 3%nat) l client in
        let s := with_heap s (heap_set (heap s) list_addr (OList l)) in
        if negb (rc =? 0) then (-1, cleanup s) else
        let '(r, _, t) := hash_table_put (ok 4%nat) (heap s) (reg_table s)
                                         command_key list_addr in
        let s := with_table s t in
        if r =? 0 then (-1, cleanup s) else (0, s)
    end.

(** *** [handle_register_message] *)

Inductive dispatch :=
| Ignored
| RegistryAction (length action : Z) (client_id message_id : string)
| ListRegistry (client_id message_id : string)
| NullDeref.

Record reg_headers := mk_reg_headers {
  recv_client_id : option string;
  recv_message_id : option string;
  recv_length : option string;
  recv_action : option string
}.

Definition all_found (r : reg_headers) : bool :=
  match r with
  | mk_reg_headers (Some _) (Some _) (Some _) (Some _) => true
  | _ => false
  end.

(** The header loop with its [__get_header] chain and early [break]. *)
Fixpoint scan_headers (hs : list string) (r : reg_headers) : reg_headers :=
  match hs with
  | [] => r
  | h :: hs' =>
      let found :=
        if startswith h "Client ID: " then
          Some (mk_reg_headers (Some (after h "Client ID: ")) (recv_message_id r)
                               (recv_length r) (recv_action r))
        else if startswith h "Message ID: " then
          Some (mk_reg_headers (recv_client_id r) (Some (after h "Message ID: "))
                               (recv_length r) (recv_action r))
        else if startswith h "Length: " then
          Some (mk_reg_headers (recv_client_id r) (recv_message_id r)
                               (Some (after h "Length: ")) (recv_action r))
        else if startswith h "Action: " then
          Some (mk_reg_headers (recv_client_id r) (recv_message_id r)
                               (recv_length r) (Some (after h "Action: ")))
        else None in
      match found with
      | None => scan_headers hs' r
      | Some r' => if all_found r' then r' else scan_headers hs' r'
      end
  end.

(** [strequals(a, b)] with [a] possibly NULL. *)
Definition strequals_opt (a : option string) (b : string) : option bool :=
  match a with
  | Some a => Some (String.eqb a b)
  | None => None
  end.

Definition handle_register_message (headers : list string) : dispatch :=
  let r := scan_headers headers (mk_reg_headers None None None None) in
  match recv_client_id r with
  | None => Ignored
  | Some cid =>
      if String.eqb cid "0:0" then Ignored
      else if negb (has_char ":"%char cid) then Ignored
      else if (match recv_length r with None => true | Some _ => false end) &&
              (match recv_action r with
               | None => true
               | Some a => negb (String.eqb a "list")
               end) then Ignored
      else match recv_message_id r with
      | None => Ignored
      | Some mid =>
          let length := match recv_length r with Some l => atoll l | None => 0 end in
          let action := match recv_action r with Some _ => Some "add"%string | None => None end in
          match strequals_opt action "add" with
          | None => NullDeref
          | Some true => RegistryAction length 1 cid mid
          | Some false =>
          match strequals_opt action "remove" with
          | None => NullDeref
          | Some true => RegistryAction length (-1) cid mid
          | Some false =>
          match strequals_opt action "wait" with
          | None => NullDeref
          | Some true => RegistryAction length 0 cid mid
          | Some false =>
          match strequals_opt action "list" with
          | None => NullDeref
          | Some true => ListRegistry cid mid
          | Some false => Ignored
          end end end end
      end
  end.

(** *** [list_registry] *)

Definition INT32_MAX : Z := 2147483647.

Fixpoint registry_keys (h : list (Z * obj)) (t : list (Z * Z)) : option string :=
  match t with
  | [] => Some EmptyString
  | (k, _) :: t' =>
      match key_string h k, registry_keys h t' with
      | Some command, Some rest => Some (command ++ nl ++ rest)%string
      | _, _ => None
      end
  end.

(** [list_registry], with the allocations of [send_buffer] succeeding.
    Returns the byte strings passed to [full_send], in order, and the new
    state; [None] when a key is not a live string. *)
Definition list_registry (recv_client_id recv_message_id : string) (s : reg_state)
  : option (list string * reg_state) :=
  match registry_keys (heap s) (reg_table s) with
  | None => None
  | Some payload =>
      let ptr := Z.of_nat (String.length payload) in
      let header :=
        ("To: " ++ recv_message_id ++ nl ++
         "In response to: " ++ recv_client_id ++ nl ++
         "Message ID: " ++ dec (message_id s) ++ nl ++
         "Length: " ++ dec ptr ++ nl ++ nl)%string in
      let mid := if message_id s =? INT32_MAX then 0 else message_id s + 1 in
      Some ([header; payload],
            mk_reg_state (heap s) (next_addr s) (reg_table s) mid)
  end.

(** The lines of a header block (up to the empty line). *)
Fixpoint header_lines_aux (str : string) (cur : string) : list string :=
  match str with
  | EmptyString => []
  | String c str' =>
      if Ascii.eqb c (ascii_of_nat 10) then
        if String.eqb cur EmptyString then []
        else cur :: header_lines_aux str' EmptyString
      else header_lines_aux str' (cur ++ String c EmptyString)%string
  end.

Definition header_lines (str : string) : list string := header_lines_aux str EmptyString.

(** *** [parse_client_id] (mds-registry.c) *)

(** [client_low = rawmemchr(client_words, ':')] followed by
    [*client_low++ = '\0']: the parts before and after the first colon;
    [None] when the copied string holds no colon (the search then runs
    past the terminator). *)
Fixpoint split_colon (str : string) : option (string * string) :=
  match str with
  | EmptyString => None
  | String c str' =>
      if Ascii.eqb c ":"%char then Some (EmptyString, str')
      else match split_colon str' with
           | Some (high, low) => Some (String c high, low)
           | None => None
           end
  end.

(** [parse_client_id]: [str] (a C string, without NUL bytes) is
    [strcpy]ed into the 22-byte [client_words]; [None] when it does not
    fit with its terminator.  Both parts go through [atoll] and are cast
    to [uint64_t]. *)
Definition parse_client_id (str : string) : option Z :=
  if (22 <=? String.length str)%nat then None else
  match split_colon str with
  | None => None
  | Some (client_high, client_low) =>
      let client := wrap64 (atoll client_high) in
      let client := wrap64 (Z.shiftl client 32) in
      Some (Z.lor client (wrap64 (atoll client_low)))
  end.

(** *** [full_send] *)

Definition EINTR : Z := 4.

(** What one call of [send_message] answers: the count it returns, as the
    [size_t] stored in [sent] (an error return -1 becomes [2^64 - 1]), and
    [errno] after the call. *)
Record send_result := mk_send_result {
  sent : Z;
  send_errno : Z
}.

(** [full_send(message, length)]: [calls] are the answers of the
    successive [send_message] calls.  Returns the return value ([None]
    when [calls] runs out while the loop still runs) and the bytes the
    calls reported as sent, in order. *)
Fixpoint full_send (calls : list send_result) (message : list ascii)
  : option Z * list ascii :=
  match message with
  | [] => (Some 0, [])
  | _ :: _ =>
      match calls with
      | [] => (None, [])
      | r :: calls' =>
          let length := Z.of_nat (List.length message) in
          if length <? sent r then (Some (-1), [])
          else
            let chunk := firstn (Z.to_nat (sent r)) message in
            if (sent r <? length) && negb (send_errno r =? EINTR)
            then (Some (-1), chunk)
            else
              let '(rc, rest) := full_send calls' (skipn (Z.to_nat (sent r)) message) in
              (rc, chunk ++ rest)
      end
  end.

(** *** The payload loop of [registry_action] *)

(** The C string at the start of a byte sequence: up to its first NUL. *)
Fixpoint c_string (bs : list ascii) : string :=
  match bs with
  | [] => EmptyString
  | c :: bs' => if Ascii.eqb c zero then EmptyString else String c (c_string bs')
  end.

(** [rawmemchr(p, '\n') - p]: the offset of the first newline. *)
Fixpoint newline_offset (bs : list ascii) : option Z :=
  match bs with
  | [] => None
  | c :: bs' =>
      if Ascii.eqb c (ascii_of_nat 10) then Some 0
      else match newline_offset bs' with
           | Some d => Some (d + 1)
           | None => None
           end
  end.

(** How the loop ends, with the command strings it passed to
    [registry_action_act], in order. *)
Inductive payload_loop :=
| LoopDone (commands : list string)
| LoopBadIndex (commands : list string).

Definition cons_command (command : string) (r : payload_loop) : payload_loop :=
  match r with
  | LoopDone cs => LoopDone (command :: cs)
  | LoopBadIndex cs => LoopBadIndex (command :: cs)
  end.

(** [for (begin = 0; begin < length;)] over the buffer [buf], in which
    [payload[length] = '\n'] has been written.  A newline right at
    [begin] gives [len = (size_t)-1]: the write [command[len]] is outside
    the object ([LoopBadIndex]) and [begin] stops advancing.  The
    terminator written at [command[len]] lies before the next [begin], so
    later searches never see it.  Each iteration advances [begin] by at
    least one, so [fuel = S length] is never exhausted. *)
Fixpoint action_commands (fuel : nat) (buf : list ascii) (length begin : Z)
  : payload_loop :=
  match fuel with
  | O => LoopDone []
  | S fuel' =>
      if begin <? length then
        match newline_offset (skipn (Z.to_nat begin) buf) with
        | None => LoopBadIndex []
        | Some d =>
            if d =? 0 then LoopBadIndex []
            else
              let len := d - 1 in
              let command := c_string (firstn (Z.to_nat len) (skipn (Z.to_nat begin) buf)) in
              cons_command command (action_commands fuel' buf length (begin + len + 1))
        end
      else LoopDone []
  end.

Inductive action_outcome :=
| ActionGrowFailed                (** [growalloc] failed: -1 *)
| ActionOverflow                  (** [payload[length]] is outside the buffer *)
| ActionLoop (r : payload_loop).

(** From [if (received.payload_size == length)] to the end of the loop:
    [payload] holds the [received.payload_size] bytes of the payload;
    [grow_ok] is the outcome of [growalloc], which doubles the buffer. *)
Definition registry_action_payload (grow_ok : bool) (payload : list ascii) (length : Z)
  : action_outcome :=
  let payload_size := Z.of_nat (List.length payload) in
  let buf := firstn (Z.to_nat length) payload ++
             ascii_of_nat 10 :: skipn (S (Z.to_nat length)) payload in
  if payload_size =? length then
    if negb grow_ok then ActionGrowFailed
    else if length <? 2 * payload_size
    then ActionLoop (action_commands (S (Z.to_nat length)) buf length 0)
    else ActionOverflow
  else if length <? payload_size
  then ActionLoop (action_commands (S (Z.to_nat length)) buf length 0)
  else ActionOverflow.

(** *** Hash-table entries *)







(** *** [registry_action_remove] *)


(** *** [handle_close_message] *)









(** The registry as its users see it: each key string with its client
    list, in table order; [None] when an entry does not point to a live
    string and a live client list. *)
Fixpoint reg_view (h : list (Z * obj)) (t : list (Z * Z)) : option (list (string * client_list)) :=
  match t with
  | [] => Some []
  | (k, v) :: t' =>
      match key_string h k, lookup_obj h v, reg_view h t' with
      | Some command, Some (OList l), Some rest => Some ((command, l) :: rest)
      | _, _, _ => None
      end
  end.

(** *** [marshal_server] and [unmarshal_server] *)

Definition MDS_REGISTRY_VARS_VERSION : Z := 0.

Definition byte_of (c : ascii) : Z := Z.of_nat (nat_of_ascii c).

Definition string_bytes (str : string) : list Z := map byte_of (list_ascii_of_string str).

(** An [int] or [int32_t] as [buf_set_next] stores it: four little-endian
    bytes of its two's complement; [int_value] reads one back. *)
Definition int_bytes (v : Z) : list Z := le_bytes 4 (v mod 2 ^ 32).


(** The entries part: for each entry the key with its NUL, the size of
    the marshalled list, and the list. *)
Fixpoint marshal_entries (h : list (Z * obj)) (t : list (Z * Z)) : option (list Z) :=
  match t with
  | [] => Some []
  | (k, v) :: t' =>
      match key_string h k, lookup_obj h v, marshal_entries h t' with
      | Some command, Some (OList l), Some rest =>
          Some (string_bytes command ++ [0] ++
                le_bytes 8 (client_list_marshal_size l) ++ client_list_marshal l ++ rest)
      | _, _, _ => None
      end
  end.

(** [marshal_server]: [connected]; the message [received] as the block of
    [mds_message_marshal_size] bytes that [mds_message_marshal] writes
    ([received_bytes]); and the [capacity] of [reg_table]. *)
Definition marshal_server (connected : Z) (received_bytes : list Z) (table_capacity : Z)
    (s : reg_state) : option (list Z) :=
  match marshal_entries (heap s) (reg_table s) with
  | None => None
  | Some es =>
      Some (int_bytes MDS_REGISTRY_VARS_VERSION ++ int_bytes connected ++
            int_bytes (message_id s) ++
            le_bytes 8 (Z.of_nat (List.length received_bytes)) ++ received_bytes ++
            le_bytes 8 table_capacity ++ le_bytes 8 (Z.of_nat (List.length (reg_table s))) ++ es)
  end.

Fixpoint entries_size (h : list (Z * obj)) (t : list (Z * Z)) : option Z :=
  match t with
  | [] => Some 0
  | (k, v) :: t' =>
      match key_string h k, lookup_obj h v, entries_size h t' with
      | Some command, Some (OList l), Some rest =>
          Some (Z.of_nat (String.length command) + 1 + 8 + client_list_marshal_size l + rest)
      | _, _, _ => None
      end
  end.

(** [marshal_server_size], [received_size] being
    [mds_message_marshal_size(&received)]. *)
Definition marshal_server_size (received_size : Z) (s : reg_state) : option Z :=
  match entries_size (heap s) (reg_table s) with
  | None => None
  | Some es => Some (2 * 4 + 4 + 3 * 8 + received_size + es)
  end.




(** The registry of seed scenario 4: "draw" implemented by 1:100 and
    1:101, "input" by 1:100 (client 1:100 is [2^32 + 100]), next outgoing
    message ID 2. *)
Definition scenario_registry : reg_state :=
  mk_reg_state
    [(1, OStr "draw"); (2, OList (ClientList.mk_client_list 2 2 [4294967396; 4294967397]));
     (3, OStr "input"); (4, OList (ClientList.mk_client_list 1 1 [4294967396]))]
    5 [(1, 2); (3, 4)] 2.

End Registry.

(** ** The registry's [master_loop] (mds-registry.c) *)
Module MasterLoop.

(** Linux [errno] values. *)
Definition EINTR : Z := 4.
Definition ECONNRESET : Z := 104.

(** [reconnect_to_display()] is the macro [-1] (marked TODO). *)
Definition reconnect_to_display : Z := -1.

(** What one iteration observes: [mds_message_read] returned 0 and
    [handle_message] then returned [handle_rc], or [mds_message_read]
    returned [r <> 0]; [errno] is its value when the loop tests it. *)
Inductive read_outcome :=
| ReadMessage (handle_rc : Z) (errno : Z)
| ReadError (r : Z) (errno : Z).

(** The flags [reexecing] and [terminating], set by signal handlers, as
    seen at the top of an iteration, and that iteration's read. *)
Record iteration := mk_iteration {
  it_reexecing : bool;
  it_terminating : bool;
  it_read : read_outcome
}.

(** The server state [master_loop] touches. *)
Record bus := mk_bus {
  connected : bool;
  reg_table_live : bool;     (** [reg_table] not yet destroyed *)
  received_live : bool;      (** [received] not yet destroyed *)
  received_inits : nat;      (** re-initialisations of [received] *)
  reconnects : nat           (** calls of [reconnect_to_display] *)
}.

Inductive loop_result :=
| Running (b : bus)
| Exited (rc : Z) (b : bus).

(** The [fail:] label: [reg_table] and [received] are destroyed unless the
    loop ends successfully because of a re-exec. *)
Definition teardown (rc : Z) (reexecing : bool) (b : bus) : bus :=
  if negb (rc =? 0) || negb reexecing
  then mk_bus (connected b) false false (received_inits b) (reconnects b)
  else b.

Fixpoint master_loop (its : list iteration) (b : bus) : loop_result :=
  match its with
  | [] => Running b
  | it :: its' =>
      if it_reexecing it || it_terminating it
      then Exited 0 (teardown 0 (it_reexecing it) b)
      else
        let '(r, errno, handled) :=
          match it_read it with
          | ReadMessage h e => (h, e, h =? 0)
          | ReadError r e => (r, e, false)
          end in
        if handled then master_loop its' b
        else if r =? -2 then Exited 1 (teardown 1 (it_reexecing it) b)
        else if errno =? EINTR then master_loop its' b
        else if negb (errno =? ECONNRESET) then Exited 1 (teardown 1 (it_reexecing it) b)
        else
          let b := mk_bus false (reg_table_live b) (received_live b)
                          (S (received_inits b)) (S (reconnects b)) in
          if negb (reconnect_to_display =? 0)
          then Exited 1 (teardown 1 (it_reexecing it) b)
          else master_loop its' (mk_bus true (reg_table_live b) (received_live b)
                                        (received_inits b) (reconnects b))
  end.

End MasterLoop.

(** ** The supervisor's respawn decision ([spawn_and_respawn_server], mds.c) *)
Module Supervisor.

(** glibc's wait-status macros. *)
Definition WIFEXITED (status : Z) : bool := Z.land status 127 =? 0.
Definition WEXITSTATUS (status : Z) : Z := Z.shiftr (Z.land status 65280) 8.
Definition WTERMSIG (status : Z) : Z := Z.land status 127.

Definition SIGSEGV : Z := 11.
Definition SIGTERM : Z := 15.

(** The [status] of a child killed by signal [sig] (no core dump). *)
Definition killed_by (sig : Z) : Z := sig.

Inductive decision :=
| NoRespawn   (** leave the loop, return 0 *)
| Respawn     (** fork the master server again *)
| Abort.      (** return 1 without respawning *)

Section Respawn.

(** [RESPAWN_TIME_LIMIT_SECONDS] comes from config.h. *)
Variable RESPAWN_TIME_LIMIT_SECONDS : Z.

(** What the parent does after [waitpid] returns [status]: [start_error]
    and [end_error] say whether [clock_gettime(CLOCK_MONOTONIC, ...)]
    failed before and after the wait; [start_sec] and [end_sec] are the
    [tv_sec] fields it read. *)
Definition after_child_death (status : Z) (start_error end_error : bool)
    (start_sec end_sec : Z) : decision :=
  if WIFEXITED status ||
     (negb (WEXITSTATUS status =? 0) && negb (WTERMSIG status =? 0))
  then NoRespawn
  else if start_error || end_error then Abort
  else if end_sec - start_sec <? RESPAWN_TIME_LIMIT_SECONDS then Respawn
  else Abort.

End Respawn.

End Supervisor.

(** ** The supervisor loop and the PID file of [main] (mds.c) *)
Module MdsMain.
Import Supervisor.

(** One round of the [for (;;)] loop of [spawn_and_respawn_server] as the
    parent sees it: whether [fork] and [waitpid] succeeded, the status,
    the two [clock_gettime] failures, the [tv_sec] values, and the answer
    of [strdup("--respawn")] (asked on the first respawn only). *)
Record child_run := mk_child_run {
  fork_ok : bool;
  start_error : bool;
  wait_ok : bool;
  status : Z;
  end_error : bool;
  start_sec : Z;
  end_sec : Z;
  respawn_dup_ok : bool
}.

(** [execv] sees the argument array up to its first NULL. *)
Fixpoint until_null (args : list (option string)) : list string :=
  match args with
  | [] => []
  | None :: _ => []
  | Some a :: args' => a :: until_null args'
  end.

(** [child_args]: the path, [argv[1..argc)], then the spawn flag,
    "--socket-fd" and the descriptor; [flag] and [socket_opt] are the
    results of [strdup] (NULL: [None]). *)
Definition child_args (pathname : string) (args : list string) (flag socket_opt : option string)
    (fd : Z) : list string :=
  until_null (Some pathname :: map Some args ++ [flag; socket_opt; Some (Registry.dec fd)]).

(** The loop: returns the argument vectors of the children that were
    forked, in order, and the return value ([None] when [runs] ends while
    the loop goes on). *)
Fixpoint respawn_loop (limit : Z) (pathname : string) (args : list string) (fd : Z)
    (runs : list child_run) (first_spawn : bool) (flag socket_opt : option string)
  : list (list string) * option Z :=
  match runs with
  | [] => ([], None)
  | r :: runs' =>
      if negb (fork_ok r) then ([], Some 1) else
      let argv := child_args pathname args flag socket_opt fd in
      if negb (wait_ok r) then ([argv], Some 1) else
      match after_child_death limit (status r) (start_error r) (end_error r)
                              (start_sec r) (end_sec r) with
      | NoRespawn => ([argv], Some 0)
      | Abort => ([argv], Some 1)
      | Respawn =>
          let flag := if first_spawn
                      then (if respawn_dup_ok r then Some "--respawn"%string else None)
                      else flag in
          let '(argvs, rc) := respawn_loop limit pathname args fd runs' false flag socket_opt in
          (argv :: argvs, rc)
      end
  end.

(** [spawn_and_respawn_server]: [init_dup_ok] and [socket_dup_ok] answer
    the [strdup]s of "--initial-spawn" and "--socket-fd". *)
Definition spawn_and_respawn_server (limit : Z) (pathname : string) (args : list string)
    (fd : Z) (init_dup_ok socket_dup_ok : bool) (runs : list child_run)
  : list (list string) * option Z :=
  respawn_loop limit pathname args fd runs true
    (if init_dup_ok then Some "--initial-spawn"%string else None)
    (if socket_dup_ok then Some "--socket-fd"%string else None).

(** The check of an existing PID file in [main]. *)
Inductive pid_check :=
| PidValue (pid : Z)      (** the PID to probe with [kill(pid, 0)] *)
| PidInvalid              (** "the content of a PID file is invalid" *)
| PidTooLong              (** "the content of a PID file is longer than expected" *)
| PidOverflow             (** [pid * 10 + (c & 15)] overflows [pid_t] *)
| PidUnread.              (** [read_len = 0]: [n = SIZE_MAX], the scan reads
                              bytes [fread] did not store *)

Definition INT32_MAX : Z := 2147483647.

(** [for (i = 0; i < n; i++)] over [piddata[0..n)]. *)
Fixpoint pid_scan (bs : list ascii) (pid : Z) : pid_check :=
  match bs with
  | [] => PidValue pid
  | c :: bs' =>
      if Registry.is_digit c then
        let pid := pid * 10 + Z.land (Registry.byte_of c) 15 in
        if INT32_MAX <? pid then PidOverflow else pid_scan bs' pid
      else PidInvalid
  end.

(** [data] is what [fread] stored in [piddata] (at most 64 bytes) and
    [eof] is [feof(f)] afterwards, [ferror(f)] being clear. *)
Definition pid_file_check (data : list ascii) (eof : bool) : pid_check :=
  if negb eof then PidTooLong else
  match rev data with
  | [] => PidUnread
  | last :: _ =>
      match pid_scan (removelast data) 0 with
      | PidValue pid =>
          if Ascii.eqb last (ascii_of_nat 10) then PidValue pid else PidInvalid
      | r => r
      end
  end.

(** The PID file [main] writes: [snprintf(piddata, ..., "%u\n", getpid())]. *)
Definition pid_file_contents (pid : Z) : string :=
  (Registry.dec pid ++ Registry.nl)%string.

End MdsMain.

(* ================================================================= *)
(** * Proofs *)

(** ** [to_power_of_two] *)
Module PowerOfTwo.

Lemma existsb_ext {A} (f g : A -> bool) (l : list A) :
  (forall x, In x l -> f x = g x) -> existsb f l = existsb g l.
Proof.
  induction l as [|a l IH]; intros H; [reflexivity|]. simpl.
  rewrite (H a (or_introl eq_refl)), IH; [reflexivity|].
  intros x Hx. apply H. right. exact Hx.
Qed.

Lemma existsb_seq_split (f : nat -> bool) (a n m : nat) :
  existsb f (seq a (n + m)) = existsb f (seq a n) || existsb f (seq (a + n) m).
Proof. rewrite seq_app, existsb_app. reflexivity. Qed.

Lemma existsb_seq_shift (f : nat -> bool) (a n : nat) :
  existsb f (seq a n) = existsb (fun d => f (a + d)%nat) (seq 0 n).
Proof.
  revert a f. induction n as [|n IH]; intros a f; [reflexivity|].
  simpl. rewrite Nat.add_0_r. f_equal.
  rewrite (IH (S a) f), (IH 1%nat (fun d => f (a + d)%nat)).
  apply existsb_ext. intros d _. f_equal. lia.
Qed.

Lemma smear_step (x v : Z) (n : nat) :
  (forall i, 0 <= i -> Z.testbit x i = smear_upto v i n) ->
  forall i, 0 <= i ->
  Z.testbit (Z.lor x (Z.shiftr x (Z.of_nat n))) i = smear_upto v i (n + n).
Proof.
  intros Hx i Hi. rewrite Z.lor_spec, Z.shiftr_spec by lia.
  rewrite !Hx by lia. unfold smear_upto.
  rewrite existsb_seq_split. f_equal.
  rewrite (existsb_seq_shift _ (0 + n)). apply existsb_ext. intros d _. f_equal. lia.
Qed.

Lemma smear_upto_log2 (v i : Z) (n : nat) :
  0 < v -> Z.log2 v < Z.of_nat n -> 0 <= i ->
  smear_upto v i n = (i <=? Z.log2 v).
Proof.
  intros Hv Hlog Hi. unfold smear_upto.
  destruct (Z.leb_spec i (Z.log2 v)) as [Hle|Hgt].
  - apply existsb_exists. exists (Z.to_nat (Z.log2 v - i)). split.
    + apply in_seq. lia.
    + rewrite Z2Nat.id by lia. replace (i + (Z.log2 v - i)) with (Z.log2 v) by lia.
      apply Z.bit_log2. exact Hv.
  - apply Bool.not_true_is_false. intros Hex. apply existsb_exists in Hex.
    destruct Hex as [d [_ Hd]]. rewrite Z.bits_above_log2 in Hd by lia.
    discriminate.
Qed.

Lemma to_power_of_two_smear (value : Z) :
  to_power_of_two value = wrap64 (smear (wrap64 (value - 1)) + 1).
Proof. reflexivity. Qed.

Lemma smear_bits (v : Z) : forall i, 0 <= i ->
  Z.testbit (smear v) i = smear_upto v i 64.
Proof.
  intros i Hi. unfold smear.
  change 32 with (Z.of_nat 32). change 64%nat with (32 + 32)%nat.
  apply smear_step; [|exact Hi]. intros j Hj.
  change 16 with (Z.of_nat 16). change 32%nat with (16 + 16)%nat.
  apply smear_step; [|exact Hj]. clear i Hi. intros i Hi.
  change 8 with (Z.of_nat 8). change 16%nat with (8 + 8)%nat.
  apply smear_step; [|exact Hi]. clear j Hj. intros j Hj.
  change 4 with (Z.of_nat 4). change 8%nat with (4 + 4)%nat.
  apply smear_step; [|exact Hj]. clear i Hi. intros i Hi.
  change 2 with (Z.of_nat 2). change 4%nat with (2 + 2)%nat.
  apply smear_step; [|exact Hi]. clear j Hj. intros j Hj.
  change 1 with (Z.of_nat 1). change 2%nat with (1 + 1)%nat.
  apply smear_step; [|exact Hj]. clear i Hi. intros i Hi.
  unfold smear_upto. simpl. rewrite Z.add_0_r. destruct (Z.testbit v i); reflexivity.
Qed.

Lemma smear_ones (v : Z) : 0 < v < 2 ^ 64 ->
  smear v = Z.ones (Z.log2 v + 1).
Proof.
  intros Hv. assert (Hlog : Z.log2 v < 64) by (apply Z.log2_lt_pow2; lia).
  assert (H0 : 0 <= Z.log2 v) by apply Z.log2_nonneg.
  apply Z.bits_inj'. intros i Hi.
  rewrite smear_bits by exact Hi.
  rewrite smear_upto_log2 by lia.
  rewrite Z.testbit_ones by lia.
  destruct (Z.leb_spec i (Z.log2 v)), (Z.leb_spec 0 i), (Z.ltb_spec i (Z.log2 v + 1));
    simpl; try reflexivity; lia.
Qed.

Lemma wrap64_small (z : Z) : 0 <= z < 2 ^ 64 -> wrap64 z = z.
Proof. intros H. unfold wrap64. apply Z.mod_small. exact H. Qed.

Lemma wrap64_range (z : Z) : 0 <= wrap64 z < 2 ^ 64.
Proof. unfold wrap64. apply Z.mod_pos_bound. lia. Qed.

(** [to_power_of_two] returns a power of two, or 0 when the next power of
    two does not fit in 64 bits (this includes the input 0). *)
Lemma to_power_of_two_pow2_or_0 (value : Z) :
  to_power_of_two value = 0 \/ is_pow2 (to_power_of_two value).
Proof.
  rewrite to_power_of_two_smear.
  pose proof (wrap64_range (value - 1)) as Hr.
  destruct (Z.eq_dec (wrap64 (value - 1)) 0) as [E|E].
  - rewrite E. right. exists 0. split; [lia|reflexivity].
  - rewrite smear_ones by lia.
    set (k := Z.log2 (wrap64 (value - 1)) + 1).
    assert (Hk : 1 <= k <= 64).
    { unfold k. split.
      - pose proof (Z.log2_nonneg (wrap64 (value - 1))). lia.
      - assert (Z.log2 (wrap64 (value - 1)) < 64) by (apply Z.log2_lt_pow2; lia). lia. }
    rewrite Z.ones_equiv, Z.add_1_r, Z.succ_pred.
    destruct (Z.eq_dec k 64) as [->|Hne].
    + left. reflexivity.
    + right. exists k. split; [lia|]. apply wrap64_small.
      split; [apply Z.pow_nonneg; lia|]. apply Z.pow_lt_mono_r; lia.
Qed.

End PowerOfTwo.

(** ** Client-list invariants *)
Module ClientListProofs.
Import ClientList.

Lemma remove_first_length (x : Z) (l r : list Z) :
  remove_first x l = Some r -> List.length l = S (List.length r).
Proof.
  revert r. induction l as [|y l IH]; intros r H; simpl in H; [discriminate|].
  destruct (y =? x).
  - injection H as <-. reflexivity.
  - destruct (remove_first x l) as [r'|] eqn:E; [|discriminate].
    injection H as <-. simpl. rewrite (IH r' eq_refl). reflexivity.
Qed.

Lemma shiftl1 (z : Z) : Z.shiftl z 1 = z * 2.
Proof. rewrite Z.shiftl_mul_pow2 by lia. reflexivity. Qed.

Lemma shiftr1 (z : Z) : Z.shiftr z 1 = z / 2.
Proof. rewrite Z.shiftr_div_pow2 by lia. reflexivity. Qed.

Lemma pow2_pos (k : Z) : 0 <= k -> 0 < 2 ^ k.
Proof. intros Hk. apply Z.pow_pos_nonneg; lia. Qed.

Lemma pow2_half (k : Z) : 1 <= k -> 2 ^ k = 2 * 2 ^ (k - 1).
Proof.
  intros Hk. replace k with (Z.succ (k - 1)) at 1 by lia.
  rewrite Z.pow_succ_r by lia. reflexivity.
Qed.

Lemma cl_inv_add (l : client_list) (c : Z) (ok : bool) :
  cl_inv l -> request_sane (client_list_add_request l) ok = true ->
  cl_inv (snd (client_list_add ok l c)).
Proof.
  intros [Hsz [Hlen Hcap]] Hsane. unfold cl_inv.
  unfold client_list_add_request, client_list_add in *.
  destruct (Z.eqb_spec (size l) (capacity l)) as [Heq|Hne].
  - rewrite shiftl1 in *. simpl in Hsane.
    destruct Hcap as [[[k [Hk Hc]] Hlt] | [Hc0 Hs0]].
    + assert (Hw : wrap64 (capacity l * 2) = capacity l * 2).
      { apply PowerOfTwo.wrap64_small. lia. }
      rewrite Hw in *. destruct ok; simpl in *.
      * unfold alloc_sane in Hsane. simpl in Hsane.
        apply andb_prop in Hsane as [H1 H2].
        apply Z.ltb_lt in H1. apply Z.ltb_lt in H2.
        assert (Hpos : 0 < capacity l) by (rewrite Hc; apply pow2_pos; lia).
        rewrite PowerOfTwo.wrap64_small by lia.
        rewrite length_app. simpl. repeat split; try lia.
        left. split; [|lia]. exists (k + 1). split; [lia|].
        rewrite Z.pow_add_r by lia. rewrite Hc. reflexivity.
      * rewrite shiftr1, Z.div_mul by lia. repeat split; try lia.
        left. split; [exists k; split; assumption | lia].
    + rewrite Hc0 in Hsane. destruct ok; simpl in *.
      * discriminate.
      * rewrite Hc0. cbn. repeat split; try lia.
  - simpl. assert (Hsmall : size l + 1 <= capacity l) by lia.
    assert (Hcap' : capacity l < 2 ^ 61) by (destruct Hcap as [[_ H]|[H _]]; lia).
    rewrite PowerOfTwo.wrap64_small by lia.
    rewrite length_app. simpl. repeat split; try lia.
    destruct Hcap as [H|[H1 H2]]; [left; exact H | lia].
Qed.

Lemma cl_inv_remove (l : client_list) (c : Z) (ok : bool) :
  cl_inv l -> request_sane (client_list_remove_request l c) ok = true ->
  cl_inv (client_list_remove ok l c).
Proof.
  intros [Hsz [Hlen Hcap]] Hsane. unfold cl_inv.
  unfold client_list_remove_request, client_list_remove in *.
  destruct (remove_first c (clients l)) as [rest|] eqn:Erm;
    [|split; [|split]; assumption].
  apply remove_first_length in Erm.
  assert (Hs1 : 1 <= size l) by lia.
  assert (Hcap1 : 1 <= capacity l) by lia.
  assert (Hlt : capacity l < 2 ^ 61) by (destruct Hcap as [[_ H]|[H _]]; lia).
  destruct Hcap as [[[k [Hk Hc]] _] | [Hc0 _]]; [|lia].
  rewrite shiftl1 in *. rewrite PowerOfTwo.wrap64_small in * by lia.
  destruct (Z.leb_spec ((size l - 1) * 2) (capacity l)) as [Hle|Hgt].
  - rewrite shiftr1 in *. simpl in Hsane.
    destruct ok.
    + unfold alloc_sane in Hsane. simpl in Hsane.
      apply andb_prop in Hsane as [H1 H2].
      apply Z.ltb_lt in H1. apply Z.ltb_lt in H2.
      assert (Hk1 : 1 <= k).
      { destruct (Z.eq_dec k 0) as [->|]; [|lia]. simpl in Hc. rewrite Hc in H1.
        change (1 / 2) with 0 in H1. lia. }
      pose proof (pow2_half k Hk1) as Hh.
      assert (Hd : capacity l / 2 = 2 ^ (k - 1)).
      { rewrite Hc, Hh, Z.mul_comm, Z.div_mul by lia. reflexivity. }
      simpl. rewrite Hd. repeat split; try lia.
      left. split; [exists (k - 1); split; [lia|reflexivity] | lia].
    + cbn [capacity size clients]. rewrite shiftl1. destruct (Z.eq_dec k 0) as [->|Hk0].
      * simpl in Hc. rewrite Hc. change (1 / 2) with 0. change (wrap64 0) with 0.
        assert (size l = 1) by lia. assert (W0 : wrap64 0 = 0) by reflexivity. cbn -[wrap64]. rewrite W0. repeat split; try lia.
      * pose proof (pow2_half k ltac:(lia)) as Hh.
        assert (Hd : capacity l / 2 * 2 = capacity l).
        { rewrite Hc, Hh, (Z.mul_comm 2 (2 ^ (k - 1))), Z.div_mul by lia. lia. }
        rewrite Hd. rewrite PowerOfTwo.wrap64_small by lia.
        repeat split; try lia. left. split; [exists k; split; assumption | lia].
  - simpl. repeat split; try lia. left. split; [exists k; split; assumption | lia].
Qed.

Lemma cl_inv_run (ops : list cl_op) : forall l,
  cl_inv l -> sane_trace l ops = true -> cl_inv (cl_run l ops).
Proof.
  induction ops as [|op ops IH]; intros l Hinv Hsane; [exact Hinv|].
  simpl in Hsane. apply andb_prop in Hsane as [Hop Hrest].
  simpl. apply IH; [|exact Hrest].
  destruct op as [x ok|x ok]; simpl in *.
  - apply cl_inv_add; assumption.
  - apply cl_inv_remove; assumption.
Qed.

Lemma cl_inv_create (ok : bool) (c : Z) (l : client_list) :
  client_list_create ok c = Some l ->
  alloc_sane (client_list_create_request c) ok = true ->
  cl_inv l.
Proof.
  unfold client_list_create, client_list_create_request.
  destruct ok; [|discriminate]. intros H Hs. injection H as <-.
  unfold alloc_sane in Hs. simpl in Hs.
  apply andb_prop in Hs as [H1 H2]. apply Z.ltb_lt in H1. apply Z.ltb_lt in H2.
  unfold cl_inv. simpl. repeat split; try lia.
  destruct (PowerOfTwo.to_power_of_two_pow2_or_0
              (if c =? 0 then CLIENT_LIST_DEFAULT_INITIAL_CAPACITY else c)) as [H0|Hp].
  - lia.
  - left. split; assumption.
Qed.

(** *** Marshalling round trip *)

Lemma le_value_le_bytes (n : nat) : forall z,
  le_value (le_bytes n z) = z mod 2 ^ (8 * Z.of_nat n).
Proof.
  induction n as [|n IH]; intros z.
  - simpl. rewrite Z.mod_1_r. reflexivity.
  - cbn [le_bytes le_value]. rewrite IH.
    replace (8 * Z.of_nat (S n)) with (8 + 8 * Z.of_nat n) by lia.
    rewrite Z.pow_add_r by lia. rewrite Z.rem_mul_r by lia. reflexivity.
Qed.

Lemma length_le_bytes (n : nat) : forall z, length (le_bytes n z) = n.
Proof. induction n as [|n IH]; intros z; simpl; [reflexivity|]. rewrite IH. reflexivity. Qed.

Lemma read_bytes_app (bs rest : list Z) :
  read_bytes (length bs) (bs ++ rest) = Some (bs, rest).
Proof.
  induction bs as [|b bs IH]; [reflexivity|]. simpl. rewrite IH. reflexivity.
Qed.

Lemma read_le_bytes (n : nat) (z : Z) (rest : list Z) :
  read_bytes n (le_bytes n z ++ rest) = Some (le_bytes n z, rest).
Proof.
  rewrite <- (length_le_bytes n z) at 1. apply read_bytes_app.
Qed.

Lemma le_bytes_roundtrip (n : nat) (z : Z) :
  0 <= z < 2 ^ (8 * Z.of_nat n) -> le_value (le_bytes n z) = z.
Proof. intros H. rewrite le_value_le_bytes. apply Z.mod_small. exact H. Qed.

Lemma read_u64s_concat (l : list Z) (rest : list Z) :
  Forall (fun x => 0 <= x < 2 ^ 64) l ->
  read_u64s (length l) (concat (map (le_bytes 8) l) ++ rest) = Some l.
Proof.
  induction l as [|x l IH]; intros Hall; [reflexivity|].
  inversion Hall as [|? ? Hx Hl]; subst.
  cbn [length read_u64s map concat]. rewrite <- app_assoc.
  rewrite read_le_bytes, le_bytes_roundtrip by exact Hx.
  rewrite (IH Hl). reflexivity.
Qed.

(** *** Claims on client lists *)

(** C5 (counterexample): [client_list_remove] shrinks below the default
    initial capacity 8.  From [client_list_create(0)] (capacity 8), adding
    and removing one client leaves size 0 and capacity 4, so after this
    shrink neither [size * 2 > capacity] nor [capacity = 8] holds. *)
Lemma client_list_shrink_below_default :
  client_list_create true 0 = Some (mk_client_list 8 0 []) /\
  capacity (cl_run (mk_client_list 8 0 []) [OpAdd 5 true]) = 8 /\
  cl_run (mk_client_list 8 0 []) [OpAdd 5 true; OpRemove 5 true] = mk_client_list 4 0 [] /\
  sane_trace (mk_client_list 8 0 []) [OpAdd 5 true; OpRemove 5 true] = true /\
  ~ (0 * 2 > 4 \/ 4 = CLIENT_LIST_DEFAULT_INITIAL_CAPACITY).
Proof.
  split; [reflexivity|]. split; [reflexivity|]. split; [reflexivity|].
  split; [reflexivity|]. unfold CLIENT_LIST_DEFAULT_INITIAL_CAPACITY. lia.
Qed.

(** The same absence of a floor takes a capacity-1 list (the registry
    creates its lists with [client_list_create(list, 1)]) to capacity 0
    when its only client is removed, whatever the allocator answers. *)
Lemma client_list_capacity_reaches_0 :
  client_list_create true 1 = Some (mk_client_list 1 0 []) /\
  cl_run (mk_client_list 1 0 []) [OpAdd 5 true; OpRemove 5 false] = mk_client_list 0 0 [] /\
  cl_run (mk_client_list 1 0 []) [OpAdd 5 true; OpRemove 5 true] = mk_client_list 0 0 [].
Proof. repeat split; reflexivity. Qed.

(** C5 (amended): for every list made by [client_list_create] and every
    sequence of [client_list_add] / [client_list_remove] in which the
    allocator refuses requests of zero elements or of [2^61] elements or
    more, the list satisfies [size <= capacity], and its capacity is a
    power of two, or 0 with the list empty. *)
Theorem client_list_invariant (c : Z) (ok : bool) (l : client_list) (ops : list cl_op) :
  client_list_create ok c = Some l ->
  alloc_sane (client_list_create_request c) ok = true ->
  sane_trace l ops = true ->
  cl_inv (cl_run l ops).
Proof.
  intros Hc Hs Ht. apply cl_inv_run; [|exact Ht].
  apply (cl_inv_create ok c l Hc Hs).
Qed.

Lemma client_list_invariant_witness :
  client_list_create true 0 = Some (mk_client_list 8 0 []) /\
  cl_inv (cl_run (mk_client_list 8 0 []) [OpAdd 5 true; OpAdd 6 true; OpRemove 5 true]).
Proof.
  split; [reflexivity|].
  apply (client_list_invariant 0 true); reflexivity.
Defined.

(** C6: [client_list_unmarshal] of the bytes written by
    [client_list_marshal] (when its [malloc] succeeds) rebuilds a list
    with the same capacity, size and elements; the buffer is exactly
    [client_list_marshal_size] bytes long. *)
Theorem client_list_marshal_roundtrip (l : client_list) :
  cl_wf l ->
  client_list_unmarshal true (client_list_marshal l) = Some l /\
  Z.of_nat (length (client_list_marshal l)) = client_list_marshal_size l.
Proof.
  destruct l as [cap sz cl]. intros (Hcap & Hsz & Hszb & Hall).
  cbn [capacity size clients] in *. split.
  - unfold client_list_unmarshal, client_list_marshal. cbn [capacity size clients].
    rewrite read_le_bytes, read_le_bytes, read_le_bytes.
    rewrite !le_bytes_roundtrip by (simpl; lia).
    rewrite Hsz, Nat2Z.id.
    rewrite <- (app_nil_r (concat (map (le_bytes 8) cl))).
    rewrite read_u64s_concat by exact Hall. reflexivity.
  - unfold client_list_marshal, client_list_marshal_size. cbn [capacity size clients].
    rewrite !length_app, !length_le_bytes.
    assert (Hc : forall l', length (concat (map (le_bytes 8) l')) = (8 * length l')%nat).
    { induction l' as [|x l' IH]; [reflexivity|].
      cbn [map concat length]. rewrite length_app, length_le_bytes, IH. lia. }
    rewrite Hc. lia.
Qed.

Lemma client_list_marshal_roundtrip_witness :
  cl_wf (mk_client_list 8 2 [4294967396; 4294967397]) /\
  client_list_unmarshal true (client_list_marshal (mk_client_list 8 2 [4294967396; 4294967397]))
    = Some (mk_client_list 8 2 [4294967396; 4294967397]).
Proof.
  assert (H : cl_wf (mk_client_list 8 2 [4294967396; 4294967397])).
  { unfold cl_wf. simpl. repeat split; try lia.
    repeat constructor; lia. }
  split; [exact H|]. apply (client_list_marshal_roundtrip _ H).
Defined.

(** Seed scenario 1: [client_list_create(0)], marshalled and unmarshalled,
    gives size 0 and capacity 8. *)
Lemma client_list_empty_roundtrip :
  match client_list_create true 0 with
  | Some l => client_list_unmarshal true (client_list_marshal l)
  | None => None
  end = Some (mk_client_list 8 0 []).
Proof. reflexivity. Qed.

End ClientListProofs.

(** ** Linked-list claims *)
Module LinkedListProofs.
Import LinkedList.

Lemma ll_three_built :
  (t0 <- linked_list_create 4 ;;
   p1 <- linked_list_insert_after [] t0 10 0 ;;
   p2 <- linked_list_insert_after [] (snd p1) 20 (fst p1) ;;
   Ok (snd p2)) = Ok ll_three /\ links_ok ll_three = true.
Proof. split; reflexivity. Qed.

(** C8 (code_bug): [linked_list_insert_before] links the new node after
    the reference node's successor instead of its predecessor
    ([previous[node] = next[successor]]).  Inserting 30 before slot 1 of
    the ring 0 -> 1 -> 2 -> 0 gives the new slot 3 the predecessor 2
    (slot 1's former successor) rather than 0 (its former predecessor),
    and slot 0 then has [next[prev[0]] = next[2] = 3 <> 0]. *)
Lemma insert_before_breaks_links :
  arr_get (previous ll_three) 1 = Ok 0 /\
  linked_list_insert_before [] ll_three 30 1 =
    Ok (3, mk_linked_list 4 4 0 0 [0; 0; 0; 0] [0; 10; 20; 30]
                          [1; 2; 3; 1] [2; 3; 1; 2]) /\
  links_ok (mk_linked_list 4 4 0 0 [0; 0; 0; 0] [0; 10; 20; 30]
                           [1; 2; 3; 1] [2; 3; 1; 2]) = false.
Proof. repeat split; reflexivity. Qed.

(** For comparison, [linked_list_insert_after] on the same ring keeps
    every link. *)
Lemma insert_after_keeps_links_example :
  match linked_list_insert_after [] ll_three 30 1 with
  | Ok (n, t) => n = 3 /\ links_ok t = true /\ traversal t = [10; 30; 20]
  | Fault _ => False
  end.
Proof. vm_compute. repeat split; reflexivity. Qed.

(** C9 (code_bug): [linked_list_pack] never stores the new capacity.
    Packing the two-slot list [ll_one] allocates its arrays with
    [to_power_of_two(2) = 2] elements but leaves [capacity] at 128. *)
Lemma pack_keeps_old_capacity :
  to_power_of_two 2 = 2 /\
  match ll_one with
  | Ok t =>
      capacity t = 128 /\
      match linked_list_pack [] t with
      | Ok (rc, t') =>
          rc = 0 /\ capacity t' = 128 /\ end_ t' = 2 /\ reuse_head t' = 0 /\
          length (next t') = 2%nat /\ length (previous t') = 2%nat /\
          length (values t') = 2%nat /\ traversal t' = [10]
      | Fault _ => False
      end
  | Fault _ => False
  end.
Proof. vm_compute. repeat split; reflexivity. Qed.

(** C10 (code_bug): when the free stack is empty, the arrays are full and
    the first [realloc] of [linked_list_get_next] fails, the slot
    [LINKED_LIST_UNUSED] (-1) it returns is used as an index:
    [linked_list_insert_after] writes [values[-1]] before anything checks
    the result. *)
Theorem insert_after_writes_unused_slot (t : linked_list) (value predecessor : Z) :
  reuse_head t = 0 -> end_ t = capacity t ->
  linked_list_insert_after [false] t value predecessor = Fault LINKED_LIST_UNUSED.
Proof.
  destruct t as [cap e rh ed ru va ne pr]. cbn [reuse_head end_ capacity].
  intros -> ->. unfold linked_list_insert_after, linked_list_get_next.
  cbn [reuse_head end_ capacity]. rewrite Z.eqb_refl. reflexivity.
Qed.

Lemma insert_after_writes_unused_slot_witness :
  linked_list_create 1 = Ok (mk_linked_list 1 1 0 0 [0] [0] [0] [0]) /\
  linked_list_insert_after [false] (mk_linked_list 1 1 0 0 [0] [0] [0] [0]) 7 0
    = Fault LINKED_LIST_UNUSED.
Proof.
  split; [reflexivity|].
  apply insert_after_writes_unused_slot; reflexivity.
Defined.

End LinkedListProofs.

(** ** Registry claims *)
Module RegistryProofs.
Import Registry.

(** C1 (code_bug): [list_registry] passes [recv_message_id] to the [To]
    field and [recv_client_id] to [In response to].  A list request from
    client "2:7" with message ID "42" sends the header block
    "To: 42 / In response to: 2:7 / Message ID: 2 / Length: 11" and the
    payload "draw\ninput\n"; it has no "To: 2:7" and no
    "In response to: 42" header. *)
Lemma list_registry_swaps_to_and_in_response_to :
  match list_registry "2:7" "42" scenario_registry with
  | Some ([header; payload], s') =>
      header_lines header =
        ["To: 42"; "In response to: 2:7"; "Message ID: 2"; "Length: 11"]%string /\
      payload = ("draw" ++ nl ++ "input" ++ nl)%string /\
      String.length payload = 11%nat /\
      existsb (String.eqb "To: 2:7") (header_lines header) = false /\
      existsb (String.eqb "In response to: 42") (header_lines header) = false /\
      message_id s' = 3
  | _ => False
  end.
Proof. vm_compute. repeat split; reflexivity. Qed.

(** C2 (code_bug): for a command not yet in the registry,
    [registry_action_add] takes the 0 that [hash_table_put] returns for a
    newly inserted key as a failure: with every allocation succeeding it
    destroys the new list, frees the key string and returns -1, while the
    table keeps the new entry, whose key (address 2) and value (address 1)
    are no longer allocated. *)
Lemma registry_action_add_new_key_fails :
  registry_action_add [] false "draw" 4294967396 (mk_reg_state [] 1 [] 2)
    = (-1, mk_reg_state [] 3 [(2, 1)] 2) /\
  lookup_obj [] 2 = None /\ lookup_obj [] 1 = None.
Proof. repeat split; reflexivity. Qed.

(** C3 (code_bug): [handle_register_message] replaces every present
    [Action] by "add" ([if (recv_action != NULL) recv_action = "add"]), so
    "Action: remove" performs an add; and with no [Action] header but a
    [Length] it calls [strequals] on NULL. *)
Lemma handle_register_message_overrides_action :
  handle_register_message
    ["Command: register"; "Client ID: 1:2"; "Message ID: 5"; "Length: 7"; "Action: remove"]%string
    = RegistryAction 7 1 "1:2" "5" /\
  handle_register_message
    ["Command: register"; "Client ID: 1:2"; "Message ID: 5"; "Action: list"]%string
    = RegistryAction 0 1 "1:2" "5" /\
  handle_register_message
    ["Command: register"; "Client ID: 1:2"; "Message ID: 5"; "Length: 7"]%string
    = NullDeref.
Proof. repeat split; reflexivity. Qed.

End RegistryProofs.

(** ** Master-loop claims *)
Module MasterLoopProofs.
Import MasterLoop.

(** C4 (counterexample): a malformed message (-2 from
    [mds_message_read]) ends [master_loop] with 1, the registry table and
    the message destroyed, and no reconnection. *)
Lemma master_loop_malformed_exits :
  master_loop [mk_iteration false false (ReadError (-2) 0)] (mk_bus true true true 0 0)
    = Exited 1 (mk_bus true false false 0 0).
Proof. reflexivity. Qed.

(** C4 (amended): whenever [mds_message_read] returns -2 (and neither
    [reexecing] nor [terminating] is set), [master_loop] returns 1 at
    once, destroying [reg_table] and [received], without re-initialising
    the parser or reconnecting. *)
Theorem master_loop_malformed_aborts (b : bus) (errno : Z) (rest : list iteration) :
  master_loop (mk_iteration false false (ReadError (-2) errno) :: rest) b
    = Exited 1 (mk_bus (connected b) false false (received_inits b) (reconnects b)).
Proof. reflexivity. Qed.

End MasterLoopProofs.

(** ** Supervisor claims *)
Module SupervisorProofs.
Import Supervisor.

(** C7 (code_bug): for a master server killed by SIGSEGV the supervisor
    respawns exactly when it lived less than [RESPAWN_TIME_LIMIT_SECONDS]
    and aborts ("died too fast, not respawning") otherwise: the test is
    the reverse of the floor.  E.g. with a limit of 5 s, a server that
    ran 100 s is not respawned, and one that ran 0 s is. *)
Theorem respawn_floor_inverted (limit start_sec end_sec : Z) :
  after_child_death limit (killed_by SIGSEGV) false false start_sec end_sec
    = if end_sec - start_sec <? limit then Respawn else Abort.
Proof. reflexivity. Qed.

(** A SIGTERM death is handled like any abnormal death. *)
Lemma sigterm_not_distinguished (limit start_sec end_sec : Z) :
  after_child_death limit (killed_by SIGTERM) false false start_sec end_sec
    = after_child_death limit (killed_by SIGSEGV) false false start_sec end_sec.
Proof. reflexivity. Qed.

End SupervisorProofs.

(** ** Further properties of client lists and [to_power_of_two] *)
Module ClientListExtra.
Import ClientList.

(** [to_power_of_two] rounds every [size_t] value from 1 to [2^63] up to
    the least power of two not below it, and gives 0 for 0 and for the
    values above [2^63] (whose power of two does not fit). *)
Theorem to_power_of_two_least (value : Z) :
  0 <= value < 2 ^ 64 ->
  if (1 <=? value) && (value <=? 2 ^ 63)
  then exists k, 0 <= k /\ to_power_of_two value = 2 ^ k /\
                 value <= 2 ^ k /\ 2 ^ k < 2 * value
  else to_power_of_two value = 0.
Proof.
  intros Hv. rewrite PowerOfTwo.to_power_of_two_smear.
  destruct (Z.eq_dec value 1) as [->|H1].
  - simpl. exists 0. repeat split; try lia; reflexivity.
  - destruct (Z.eq_dec value 0) as [->|H0].
    + simpl. reflexivity.
    + rewrite (PowerOfTwo.wrap64_small (value - 1)) by lia.
      rewrite PowerOfTwo.smear_ones by lia.
      pose proof (Z.log2_spec (value - 1) ltac:(lia)) as [Hlo Hhi].
      pose proof (Z.log2_nonneg (value - 1)) as Hn.
      rewrite Z.ones_equiv, Z.add_1_r, Z.succ_pred.
      rewrite <- Z.add_1_r in Hhi.
      destruct (Z.leb_spec value (2 ^ 63)) as [Hle|Hgt].
      * assert (Hlog : Z.log2 (value - 1) < 63).
        { apply Z.log2_lt_pow2; lia. }
        replace ((1 <=? value) && true) with true
          by (symmetry; apply andb_true_intro; split; [apply Z.leb_le; lia | reflexivity]).
        exists (Z.log2 (value - 1) + 1).
        assert (Hp : 2 ^ (Z.log2 (value - 1) + 1) = 2 * 2 ^ Z.log2 (value - 1)).
        { rewrite Z.pow_add_r by lia. lia. }
        assert (Hb : 2 ^ Z.log2 (value - 1) < 2 ^ 63) by (apply Z.pow_lt_mono_r; lia).
        rewrite PowerOfTwo.wrap64_small by lia.
        repeat split; lia.
      * replace ((1 <=? value) && false) with false by (rewrite andb_false_r; reflexivity).
        assert (Hlog : Z.log2 (value - 1) = 63).
        { apply Z.log2_unique; lia. }
        rewrite Hlog. reflexivity.
Qed.

Lemma to_power_of_two_least_witness :
  0 <= 5 < 2 ^ 64 /\
  exists k, 0 <= k /\ to_power_of_two 5 = 2 ^ k /\ 5 <= 2 ^ k /\ 2 ^ k < 2 * 5.
Proof.
  split; [lia|]. exact (to_power_of_two_least 5 ltac:(lia)).
Defined.

Lemma remove_first_none (x : Z) (l : list Z) :
  ~ In x l -> remove_first x l = None.
Proof.
  induction l as [|y l IH]; intros Hn; [reflexivity|]. simpl.
  destruct (Z.eqb_spec y x) as [->|Hne].
  - exfalso. apply Hn. left. reflexivity.
  - rewrite IH; [reflexivity|]. intros H. apply Hn. right. exact H.
Qed.






(** Removing a client that is not in the list changes nothing: no
    element moves, the size and the capacity stay, and no reallocation
    is asked for. *)
Theorem client_list_remove_absent (ok : bool) (l : client_list) (client : Z) :
  ~ In client (clients l) ->
  client_list_remove ok l client = l /\ client_list_remove_request l client = None.
Proof.
  intros Hn. unfold client_list_remove, client_list_remove_request.
  rewrite remove_first_none by exact Hn. split; reflexivity.
Qed.

Lemma client_list_remove_absent_witness :
  client_list_remove true (mk_client_list 2 2 [5; 6]) 7 = mk_client_list 2 2 [5; 6].
Proof. apply client_list_remove_absent. simpl. lia. Defined.





End ClientListExtra.

(** ** Further properties of the registry server *)
Module RegistryExtra.
Import ClientList Registry.

(** *** Decimal client IDs *)

Lemma str_app_assoc (a b c : string) : ((a ++ b) ++ c = a ++ (b ++ c))%string.
Proof. induction a as [|x a IH]; simpl; [reflexivity | rewrite IH; reflexivity]. Qed.

Lemma str_length_app (a b : string) :
  String.length (a ++ b) = (String.length a + String.length b)%nat.
Proof. induction a as [|x a IH]; simpl; [reflexivity | rewrite IH; reflexivity]. Qed.

Lemma digit_nat (n : Z) :
  nat_of_ascii (ascii_of_nat (48 + Z.to_nat (n mod 10))) = (48 + Z.to_nat (n mod 10))%nat.
Proof.
  apply nat_ascii_embedding. pose proof (Z.mod_pos_bound n 10 ltac:(lia)). lia.
Qed.

Lemma digit_is_digit (n : Z) : is_digit (ascii_of_nat (48 + Z.to_nat (n mod 10))) = true.
Proof.
  unfold is_digit. rewrite digit_nat. pose proof (Z.mod_pos_bound n 10 ltac:(lia)).
  apply andb_true_intro. split; apply Nat.leb_le; lia.
Qed.

Lemma digit_value (n : Z) :
  Z.of_nat (nat_of_ascii (ascii_of_nat (48 + Z.to_nat (n mod 10))) - 48) = n mod 10.
Proof.
  rewrite digit_nat. pose proof (Z.mod_pos_bound n 10 ltac:(lia)).
  replace (48 + Z.to_nat (n mod 10) - 48)%nat with (Z.to_nat (n mod 10)) by lia. lia.
Qed.

Lemma digit_not_colon (n : Z) : Ascii.eqb (ascii_of_nat (48 + Z.to_nat (n mod 10))) ":"%char = false.
Proof.
  destruct (Ascii.eqb_spec (ascii_of_nat (48 + Z.to_nat (n mod 10))) ":"%char) as [E|E];
    [|reflexivity].
  exfalso. pose proof (digit_nat n) as H. rewrite E in H.
  pose proof (Z.mod_pos_bound n 10 ltac:(lia)).
  change (nat_of_ascii ":"%char) with 58%nat in H. lia.
Qed.

Lemma pow10_succ (f : nat) : 10 ^ Z.of_nat (S f) = 10 * 10 ^ Z.of_nat f.
Proof. rewrite Nat2Z.inj_succ, Z.pow_succ_r by lia. reflexivity. Qed.

Lemma atoll_dec_digits (f : nat) : forall n acc,
  0 <= n < 10 ^ Z.of_nat f -> atoll_digits (dec_digits f n acc) 0 = atoll_digits acc n.
Proof.
  induction f as [|f IH]; intros n acc Hn.
  - simpl in Hn. assert (n = 0) as -> by lia. reflexivity.
  - rewrite pow10_succ in Hn. cbn [dec_digits].
    destruct (Z.ltb_spec n 10) as [Hlt|Hge].
    + cbn [atoll_digits]. rewrite digit_is_digit, digit_value.
      rewrite Z.mod_small by lia. reflexivity.
    + rewrite IH.
      * cbn [atoll_digits]. rewrite digit_is_digit, digit_value. f_equal.
        pose proof (Z.div_mod n 10 ltac:(lia)). lia.
      * split; [apply Z.div_pos; lia|]. apply Z.div_lt_upper_bound; lia.
Qed.

Lemma dec_digits_app (f : nat) : forall n acc,
  dec_digits f n acc = (dec_digits f n EmptyString ++ acc)%string.
Proof.
  induction f as [|f IH]; intros n acc; [reflexivity|]. cbn [dec_digits].
  destruct (n <? 10); [reflexivity|].
  rewrite (IH _ (String _ acc)), (IH _ (String _ EmptyString)), str_app_assoc. reflexivity.
Qed.

Lemma split_colon_dec_digits (f : nat) : forall n acc,
  split_colon (dec_digits f n acc) =
  match split_colon acc with
  | Some (high, low) => Some (dec_digits f n high, low)
  | None => None
  end.
Proof.
  induction f as [|f IH]; intros n acc.
  - simpl. destruct (split_colon acc) as [[h l]|]; reflexivity.
  - cbn [dec_digits]. destruct (n <? 10) eqn:E.
    + cbn [split_colon]. rewrite digit_not_colon.
      destruct (split_colon acc) as [[h l]|]; reflexivity.
    + rewrite IH. cbn [split_colon]. rewrite digit_not_colon.
      destruct (split_colon acc) as [[h l]|]; reflexivity.
Qed.

Lemma dec_digits_head (f : nat) : forall n acc,
  (f <> 0%nat \/ exists c s, acc = String c s /\ is_digit c = true) ->
  exists c s, dec_digits f n acc = String c s /\ is_digit c = true.
Proof.
  induction f as [|f IH]; intros n acc H.
  - destruct H as [H|H]; [congruence | exact H].
  - cbn [dec_digits]. destruct (n <? 10).
    + do 2 eexists. split; [reflexivity | apply digit_is_digit].
    + apply IH. right. do 2 eexists. split; [reflexivity | apply digit_is_digit].
Qed.

Lemma dec_digits_length (f : nat) : forall n acc k,
  0 <= n < 10 ^ k -> 1 <= k ->
  (String.length (dec_digits f n acc) <= Z.to_nat k + String.length acc)%nat.
Proof.
  induction f as [|f IH]; intros n acc k Hn Hk; [simpl; lia|]. cbn [dec_digits].
  destruct (Z.ltb_spec n 10) as [Hlt|Hge]; [simpl; lia|].
  assert (Hk2 : 2 <= k).
  { destruct (Z.eq_dec k 1) as [->|]; [simpl in Hn; lia | lia]. }
  assert (Hp : 10 ^ k = 10 * 10 ^ (k - 1)).
  { replace k with (Z.succ (k - 1)) at 1 by lia. rewrite Z.pow_succ_r by lia. reflexivity. }
  specialize (IH (n / 10) (String (ascii_of_nat (48 + Z.to_nat (n mod 10))) acc) (k - 1)).
  simpl String.length in IH. rewrite IH; [lia| |lia].
  split; [apply Z.div_pos; lia|]. apply Z.div_lt_upper_bound; lia.
Qed.

Lemma atoll_digit_head (c : ascii) (s : string) :
  is_digit c = true -> atoll (String c s) = atoll_digits (String c s) 0.
Proof.
  intros H. unfold is_digit in H. apply andb_prop in H as [H1 H2].
  apply Nat.leb_le in H1. apply Nat.leb_le in H2.
  cbn [atoll].
  assert (Hs : is_space c = false).
  { unfold is_space. apply orb_false_intro.
    - apply Nat.eqb_neq. lia.
    - apply andb_false_intro2. apply Nat.leb_gt. lia. }
  rewrite Hs.
  destruct (Ascii.eqb_spec c "-"%char) as [->|_];
    [change (nat_of_ascii "-"%char) with 45%nat in H1; lia|].
  destruct (Ascii.eqb_spec c "+"%char) as [->|_];
    [change (nat_of_ascii "+"%char) with 43%nat in H1; lia|].
  reflexivity.
Qed.

Lemma dec_nonneg (n : Z) : 0 <= n -> dec n = dec_digits 64 n EmptyString.
Proof. intros H. unfold dec. destruct (Z.ltb_spec n 0); [lia | reflexivity]. Qed.

Lemma atoll_dec (n : Z) : 0 <= n < 10 ^ 64 -> atoll (dec n) = n.
Proof.
  intros H. rewrite dec_nonneg by lia.
  assert (Hf : 64%nat <> 0%nat) by discriminate.
  destruct (dec_digits_head 64 n EmptyString (or_introl Hf)) as [c [s [E Hd]]].
  rewrite E. rewrite (atoll_digit_head c s Hd). rewrite <- E.
  rewrite atoll_dec_digits by exact H. reflexivity.
Qed.

Lemma lor_low_bits (high low : Z) :
  0 <= low < 2 ^ 32 -> Z.lor (high * 2 ^ 32) low = high * 2 ^ 32 + low.
Proof.
  intros Hl. rewrite <- Z.add_lor_land.
  assert (Hz : Z.land (high * 2 ^ 32) low = 0).
  { apply Z.bits_inj_0. intros i. rewrite Z.land_spec.
    destruct (Z.lt_ge_cases i 32).
    - rewrite <- Z.shiftl_mul_pow2 by lia. rewrite Z.shiftl_spec_low by lia. reflexivity.
    - replace (Z.testbit low i) with false; [apply andb_false_r|]. symmetry.
      rewrite <- (Z.mod_small low (2 ^ 32)) by lia. rewrite <- Z.land_ones by lia.
      rewrite Z.land_spec, Z.ones_spec_high by lia. apply andb_false_r. }
  rewrite Hz. lia.
Qed.

(** [parse_client_id] inverts the "high:low" form in which client IDs
    are written: for 32-bit halves printed in decimal, it returns
    [high * 2^32 + low]. *)
Theorem parse_client_id_dec (high low : Z) :
  0 <= high < 2 ^ 32 -> 0 <= low < 2 ^ 32 ->
  parse_client_id (dec high ++ ":" ++ dec low) = Some (high * 2 ^ 32 + low).
Proof.
  intros Hh Hl. unfold parse_client_id.
  assert (Lh : (String.length (dec high) <= 10)%nat).
  { rewrite dec_nonneg by lia.
    pose proof (dec_digits_length 64 high EmptyString 10 ltac:(lia) ltac:(lia)) as H.
    change (Z.to_nat 10 + String.length EmptyString)%nat with 10%nat in H. exact H. }
  assert (Ll : (String.length (dec low) <= 10)%nat).
  { rewrite dec_nonneg by lia.
    pose proof (dec_digits_length 64 low EmptyString 10 ltac:(lia) ltac:(lia)) as H.
    change (Z.to_nat 10 + String.length EmptyString)%nat with 10%nat in H. exact H. }
  rewrite str_length_app. cbn [String.length String.append].
  destruct (Nat.leb_spec 22 (String.length (dec high) + S (String.length (dec low))));
    [lia|].
  rewrite (dec_nonneg high) by lia.
  rewrite <- dec_digits_app, split_colon_dec_digits. cbn [split_colon].
  rewrite Ascii.eqb_refl. cbv beta iota.
  rewrite <- (dec_nonneg high) by lia.
  rewrite !atoll_dec by lia.
  rewrite (PowerOfTwo.wrap64_small high) by lia.
  rewrite Z.shiftl_mul_pow2 by lia.
  rewrite (PowerOfTwo.wrap64_small (high * 2 ^ 32)) by lia.
  rewrite (PowerOfTwo.wrap64_small low) by lia.
  rewrite lor_low_bits by exact Hl. reflexivity.
Qed.

Lemma parse_client_id_dec_witness :
  parse_client_id (dec 1 ++ ":" ++ dec 100) = Some 4294967396.
Proof. apply (parse_client_id_dec 1 100); lia. Defined.

(** *** [full_send] *)

(** When [full_send] returns 0, the byte counts [send_message] reported
    add up to the message: the bytes reported sent are the message
    itself, in order, with nothing skipped or repeated. *)
Theorem full_send_complete (calls : list send_result) (message bytes : list ascii) :
  full_send calls message = (Some 0, bytes) -> bytes = message.
Proof.
  revert message bytes. induction calls as [|r calls IH]; intros message bytes H.
  - destruct message; simpl in H; congruence.
  - destruct message as [|c m]; [simpl in H; congruence|].
    cbn [full_send] in H.
    destruct (_ <? sent r); [congruence|].
    destruct (_ && _); [congruence|].
    destruct (full_send calls (skipn (Z.to_nat (sent r)) (c :: m))) as [rc rest] eqn:E.
    injection H as -> <-. rewrite (IH _ _ E). apply firstn_skipn.
Qed.

Lemma full_send_complete_witness :
  full_send [mk_send_result 2 EINTR; mk_send_result 3 0] (list_ascii_of_string "hello")
    = (Some 0, list_ascii_of_string "hello") /\
  list_ascii_of_string "hello" = list_ascii_of_string "hello".
Proof.
  split; [reflexivity|].
  apply (full_send_complete [mk_send_result 2 EINTR; mk_send_result 3 0]). reflexivity.
Defined.

(** *** The payload loop of [registry_action] *)

Lemma newline_offset_app (l r : list ascii) :
  ~ In (ascii_of_nat 10) l ->
  newline_offset (l ++ ascii_of_nat 10 :: r) = Some (Z.of_nat (List.length l)).
Proof.
  induction l as [|c l IH]; intros Hn.
  - reflexivity.
  - cbn [app newline_offset].
    destruct (Ascii.eqb_spec c (ascii_of_nat 10)) as [->|Hne].
    + exfalso. apply Hn. left. reflexivity.
    + rewrite IH by (intros H; apply Hn; right; exact H).
      cbn [List.length]. f_equal. lia.
Qed.

Lemma action_commands_S (fuel : nat) (buf : list ascii) (length begin : Z) :
  action_commands (S fuel) buf length begin =
  if begin <? length then
    match newline_offset (skipn (Z.to_nat begin) buf) with
    | None => LoopBadIndex []
    | Some d =>
        if d =? 0 then LoopBadIndex []
        else cons_command (c_string (firstn (Z.to_nat (d - 1)) (skipn (Z.to_nat begin) buf)))
               (action_commands fuel buf length (begin + (d - 1) + 1))
    end
  else LoopDone [].
Proof. reflexivity. Qed.

Lemma payload_loop_entry (grow_ok : bool) (payload : list ascii) (length : Z) :
  1 <= length -> length <= Z.of_nat (List.length payload) ->
  (length = Z.of_nat (List.length payload) -> grow_ok = true) ->
  registry_action_payload grow_ok payload length =
  ActionLoop (action_commands (S (Z.to_nat length))
                (firstn (Z.to_nat length) payload ++
                 ascii_of_nat 10 :: skipn (S (Z.to_nat length)) payload) length 0).
Proof.
  intros H1 H2 Hg. unfold registry_action_payload.
  destruct (Z.eqb_spec (Z.of_nat (List.length payload)) length) as [E|E].
  - rewrite Hg by lia. cbn [negb].
    destruct (Z.ltb_spec length (2 * Z.of_nat (List.length payload))); [reflexivity | lia].
  - destruct (Z.ltb_spec length (Z.of_nat (List.length payload))); [reflexivity | lia].
Qed.

(** For a payload of [length >= 1] bytes with no newline among them, the
    loop of [registry_action] acts on one command, made of the first
    [length - 1] bytes: the last byte of the payload is overwritten by
    the terminator. *)
Theorem registry_action_single_command (grow_ok : bool) (payload : list ascii) (length : Z) :
  1 <= length -> length <= Z.of_nat (List.length payload) ->
  (length = Z.of_nat (List.length payload) -> grow_ok = true) ->
  ~ In (ascii_of_nat 10) (firstn (Z.to_nat length) payload) ->
  registry_action_payload grow_ok payload length =
  ActionLoop (LoopDone [c_string (firstn (Z.to_nat (length - 1)) payload)]).
Proof.
  intros H1 H2 Hg Hn. rewrite payload_loop_entry by assumption.
  remember (Z.to_nat length) as L eqn:EL.
  destruct L as [|L']; [lia|].
  rewrite action_commands_S.
  destruct (Z.ltb_spec 0 length); [|lia].
  change (Z.to_nat 0) with 0%nat. rewrite skipn_O.
  rewrite newline_offset_app by exact Hn.
  rewrite length_firstn, Nat.min_l by lia.
  destruct (Z.eqb_spec (Z.of_nat (S L')) 0); [lia|].
  rewrite action_commands_S.
  destruct (Z.ltb_spec (0 + (Z.of_nat (S L') - 1) + 1) length); [lia|].
  cbn [cons_command]. do 3 f_equal.
  rewrite firstn_app, length_firstn, Nat.min_l by lia.
  replace (Z.to_nat (Z.of_nat (S L') - 1) - S L')%nat with 0%nat by lia.
  rewrite firstn_O, app_nil_r, firstn_firstn, Nat.min_l by lia.
  f_equal. f_equal. lia.
Qed.

Lemma registry_action_single_command_witness :
  registry_action_payload true (list_ascii_of_string "draw") 4 = ActionLoop (LoopDone ["dra"%string]).
Proof.
  apply (registry_action_single_command true (list_ascii_of_string "draw") 4);
    [lia | simpl; lia | reflexivity | vm_compute; intros H; repeat (destruct H as [H|H]; [inversion H|]); exact H].
Defined.



(** *** [registry_action_remove] *)














(** *** [handle_close_message] *)
















(** *** [marshal_server] and [unmarshal_server] *)


Lemma length_client_list_marshal (cl : client_list) :
  size cl = Z.of_nat (List.length (clients cl)) ->
  Z.of_nat (List.length (client_list_marshal cl)) = client_list_marshal_size cl.
Proof.
  intros Hsz. unfold client_list_marshal, client_list_marshal_size.
  rewrite !length_app, !ClientListProofs.length_le_bytes.
  assert (Hc : forall l', List.length (concat (map (le_bytes 8) l')) = (8 * List.length l')%nat).
  { induction l' as [|x l' IH]; [reflexivity|].
    cbn [map concat List.length]. rewrite length_app, ClientListProofs.length_le_bytes, IH. lia. }
  rewrite Hc. lia.
Qed.

Lemma length_string_bytes (str : string) :
  List.length (string_bytes str) = String.length str.
Proof.
  unfold string_bytes. rewrite length_map.
  induction str as [|c str IH]; [reflexivity|]. cbn. rewrite IH. reflexivity.
Qed.








Lemma marshal_entries_cons (h : list (Z * obj)) (k a : Z) (t : list (Z * Z)) :
  marshal_entries h ((k, a) :: t) =
  match key_string h k, lookup_obj h a, marshal_entries h t with
  | Some command, Some (OList l), Some rest =>
      Some (string_bytes command ++ [0] ++
            le_bytes 8 (client_list_marshal_size l) ++ client_list_marshal l ++ rest)
  | _, _, _ => None
  end.
Proof. reflexivity. Qed.





Lemma entries_size_length (h : list (Z * obj)) (t : list (Z * Z)) (v : list (string * client_list))
    (es : list Z) :
  reg_view h t = Some v ->
  Forall (fun p => size (snd p) = Z.of_nat (List.length (clients (snd p)))) v ->
  marshal_entries h t = Some es -> entries_size h t = Some (Z.of_nat (List.length es)).
Proof.
  revert v es. induction t as [|[k a] t IH]; intros v es Hv Hs Hm.
  - injection Hm as <-. reflexivity.
  - cbn [reg_view] in Hv. rewrite marshal_entries_cons in Hm. cbn [entries_size].
    destruct (key_string h k) as [c|] eqn:Ek; [|discriminate].
    destruct (lookup_obj h a) as [[|l]|] eqn:Ea; try discriminate.
    destruct (reg_view h t) as [v'|] eqn:Ev; [|discriminate].
    destruct (marshal_entries h t) as [es'|] eqn:Es; [|discriminate].
    injection Hv as <-.
    assert (Hes : es = string_bytes c ++ [0] ++ le_bytes 8 (client_list_marshal_size l) ++
                       client_list_marshal l ++ es') by congruence.
    subst es. inversion Hs as [|? ? Hl Hs']; subst.
    rewrite (IH v' es' eq_refl Hs' eq_refl).
    rewrite !length_app, length_string_bytes, ClientListProofs.length_le_bytes.
    cbn [snd] in Hl. pose proof (length_client_list_marshal l Hl). cbn [List.length]. f_equal. lia.
Qed.

(** [marshal_server_size] is the number of bytes [marshal_server]
    writes, when each client list's [size] counts its elements. *)
Theorem marshal_server_size_exact (connected : Z) (received_bytes : list Z)
    (table_capacity : Z) (s : reg_state) (v : list (string * client_list)) (buf : list Z) :
  reg_view (heap s) (reg_table s) = Some v ->
  Forall (fun p => size (snd p) = Z.of_nat (List.length (clients (snd p)))) v ->
  marshal_server connected received_bytes table_capacity s = Some buf ->
  marshal_server_size (Z.of_nat (List.length received_bytes)) s = Some (Z.of_nat (List.length buf)).
Proof.
  intros Hv Hs Hm. unfold marshal_server in Hm. unfold marshal_server_size.
  destruct (marshal_entries (heap s) (reg_table s)) as [es|] eqn:Es; [|discriminate].
  assert (Hb : buf = int_bytes MDS_REGISTRY_VARS_VERSION ++ int_bytes connected ++
            int_bytes (message_id s) ++
            le_bytes 8 (Z.of_nat (List.length received_bytes)) ++ received_bytes ++
            le_bytes 8 table_capacity ++ le_bytes 8 (Z.of_nat (List.length (reg_table s))) ++ es)
    by congruence.
  subst buf. rewrite (entries_size_length _ _ _ es Hv Hs Es).
  unfold int_bytes. rewrite !length_app, !ClientListProofs.length_le_bytes. f_equal. lia.
Qed.

Lemma marshal_server_size_exact_witness :
  marshal_server_size (Z.of_nat (List.length [7; 9])) scenario_registry =
  Some (Z.of_nat (List.length (match marshal_server 3 [7; 9] 16 scenario_registry with
                               | Some buf => buf
                               | None => []
                               end))).
Proof.
  apply (marshal_server_size_exact 3 [7; 9] 16 scenario_registry
           [("draw"%string, mk_client_list 2 2 [4294967396; 4294967397]);
            ("input"%string, mk_client_list 1 1 [4294967396])]);
    [reflexivity | repeat constructor | reflexivity].
Defined.

End RegistryExtra.

(** ** Further properties of [master_loop] *)
Module MasterLoopExtra.
Import MasterLoop.

(** How [master_loop] leaves its resources: while it runs, the server
    state is untouched (a reconnection is never completed, since
    [reconnect_to_display()] is [-1]); it returns 0 either with the
    state as it was (re-exec) or with [reg_table] and [received]
    destroyed (termination), and it returns 1 only after destroying
    both. *)
Theorem master_loop_outcome (its : list iteration) (b : bus) :
  match master_loop its b with
  | Running b' => b' = b
  | Exited rc b' =>
      (rc = 0 /\ (b' = b \/ b' = teardown 0 false b)) \/
      (rc = 1 /\ reg_table_live b' = false /\ received_live b' = false)
  end.
Proof.
  induction its as [|it its IH]; cbn [master_loop]; [reflexivity|].
  destruct (it_reexecing it || it_terminating it).
  - left. split; [reflexivity|]. destruct (it_reexecing it); [left | right]; reflexivity.
  - unfold reconnect_to_display.
    destruct (it_read it) as [h e|r e]; cbn [negb Z.eqb].
    + destruct (h =? 0); [exact IH|].
      destruct (h =? -2); [right; split; [reflexivity | split; reflexivity]|].
      destruct (e =? EINTR); [exact IH|].
      destruct (negb (e =? ECONNRESET)); (right; split; [reflexivity | split; reflexivity]).
    + destruct (r =? -2); [right; split; [reflexivity | split; reflexivity]|].
      destruct (e =? EINTR); [exact IH|].
      destruct (negb (e =? ECONNRESET)); (right; split; [reflexivity | split; reflexivity]).
Qed.

End MasterLoopExtra.

(** ** Further properties of the supervisor and the PID file (mds.c) *)
Module MdsMainExtra.
Import Supervisor MdsMain.

Lemma until_null_some (l : list string) : until_null (map Some l) = l.
Proof. induction l as [|a l IH]; [reflexivity|]. cbn. rewrite IH. reflexivity. Qed.

Lemma child_args_all (pathname : string) (args : list string) (flag socket_opt : string) (fd : Z) :
  child_args pathname args (Some flag) (Some socket_opt) fd =
  pathname :: args ++ [flag; socket_opt; Registry.dec fd].
Proof.
  unfold child_args.
  replace (Some pathname :: map Some args ++ [Some flag; Some socket_opt; Some (Registry.dec fd)])
    with (map Some (pathname :: args ++ [flag; socket_opt; Registry.dec fd]))
    by (cbn [map]; rewrite map_app; reflexivity).
  apply until_null_some.
Qed.

Lemma respawn_loop_respawn_args (limit : Z) (pathname : string) (args : list string) (fd : Z) :
  forall runs,
  Forall (fun argv => argv = pathname :: args ++ ["--respawn"; "--socket-fd"; Registry.dec fd]%string)
    (fst (respawn_loop limit pathname args fd runs false (Some "--respawn"%string)
            (Some "--socket-fd"%string))).
Proof.
  induction runs as [|r runs IH]; cbn [respawn_loop]; [constructor|].
  destruct (negb (fork_ok r)); [constructor|].
  rewrite child_args_all.
  destruct (negb (wait_ok r)); [repeat constructor|].
  destruct (after_child_death limit (status r) (start_error r) (end_error r) (start_sec r) (end_sec r));
    [repeat constructor | | repeat constructor].
  destruct (respawn_loop limit pathname args fd runs false (Some "--respawn"%string)
              (Some "--socket-fd"%string)) as [argvs rc] eqn:E.
  cbn [fst] in *. constructor; [reflexivity | exact IH].
Qed.

(** With every [strdup] succeeding, the first child the supervisor forks
    is started with "--initial-spawn" and each later one with
    "--respawn", each followed by "--socket-fd" and the socket's
    descriptor, after the supervisor's own arguments. *)
Theorem spawn_and_respawn_server_argv (limit : Z) (pathname : string) (args : list string)
    (fd : Z) (runs : list child_run) :
  Forall (fun r => respawn_dup_ok r = true) runs ->
  match fst (spawn_and_respawn_server limit pathname args fd true true runs) with
  | [] => True
  | argv :: argvs =>
      argv = pathname :: args ++ ["--initial-spawn"; "--socket-fd"; Registry.dec fd]%string /\
      Forall (fun a => a = pathname :: args ++ ["--respawn"; "--socket-fd"; Registry.dec fd]%string)
        argvs
  end.
Proof.
  intros Hok. unfold spawn_and_respawn_server.
  destruct runs as [|r runs]; cbn [respawn_loop]; [exact I|].
  inversion Hok as [|? ? Hr _]; subst.
  destruct (negb (fork_ok r)); [exact I|].
  rewrite child_args_all.
  destruct (negb (wait_ok r)); [split; [reflexivity | constructor]|].
  destruct (after_child_death limit (status r) (start_error r) (end_error r) (start_sec r) (end_sec r));
    [split; [reflexivity | constructor] | | split; [reflexivity | constructor]].
  rewrite Hr.
  pose proof (respawn_loop_respawn_args limit pathname args fd runs) as H.
  destruct (respawn_loop limit pathname args fd runs false (Some "--respawn"%string)
              (Some "--socket-fd"%string)) as [argvs rc].
  split; [reflexivity | exact H].
Qed.

Definition run_exit (status : Z) (respawn_ok : bool) : child_run :=
  mk_child_run true false true status false 0 1 respawn_ok.

Lemma spawn_and_respawn_server_argv_witness :
  match fst (spawn_and_respawn_server 5 "mds-server"%string ["-x"%string] 3 true true
               [run_exit (killed_by SIGSEGV) true; run_exit 0 true]) with
  | [] => True
  | argv :: argvs =>
      argv = "mds-server"%string :: ["-x"%string] ++ ["--initial-spawn"; "--socket-fd"; Registry.dec 3]%string /\
      Forall (fun a => a = "mds-server"%string :: ["-x"%string] ++ ["--respawn"; "--socket-fd"; Registry.dec 3]%string)
        argvs
  end.
Proof.
  apply (spawn_and_respawn_server_argv 5 "mds-server"%string ["-x"%string] 3
           [run_exit (killed_by SIGSEGV) true; run_exit 0 true]).
  repeat constructor.
Defined.

Lemma respawn_loop_rc_zero (limit : Z) (pathname : string) (args : list string) (fd : Z) :
  forall runs first_spawn flag socket_opt,
  snd (respawn_loop limit pathname args fd runs first_spawn flag socket_opt) = Some 0 ->
  exists pre r post, runs = pre ++ r :: post /\
    Forall (fun r' => fork_ok r' = true /\ wait_ok r' = true /\
                      after_child_death limit (status r') (start_error r') (end_error r')
                        (start_sec r') (end_sec r') = Respawn) pre /\
    fork_ok r = true /\ wait_ok r = true /\
    after_child_death limit (status r) (start_error r) (end_error r) (start_sec r) (end_sec r)
      = NoRespawn /\
    List.length (fst (respawn_loop limit pathname args fd runs first_spawn flag socket_opt))
      = S (List.length pre).
Proof.
  induction runs as [|r runs IH]; intros first_spawn flag socket_opt H;
    cbn [respawn_loop] in *; [discriminate|].
  destruct (fork_ok r) eqn:Hf; cbn [negb] in *; [|discriminate].
  destruct (wait_ok r) eqn:Hw; cbn [negb] in *; [|discriminate].
  destruct (after_child_death limit (status r) (start_error r) (end_error r) (start_sec r) (end_sec r))
    eqn:Hd.
  - exists [], r, runs. split; [reflexivity|]. split; [constructor|].
    repeat split; assumption || reflexivity.
  - set (flag' := if first_spawn then (if respawn_dup_ok r then Some "--respawn"%string else None)
                  else flag) in *.
    destruct (respawn_loop limit pathname args fd runs false flag' socket_opt) as [argvs rc] eqn:E.
    cbn [snd fst] in *.
    assert (H' : snd (respawn_loop limit pathname args fd runs false flag' socket_opt) = Some 0)
      by (rewrite E; exact H).
    destruct (IH false flag' socket_opt H') as [pre [r' [post [Hr [Hpre [Hf' [Hw' [Hd' Hl]]]]]]]].
    exists (r :: pre), r', post. split; [rewrite Hr; reflexivity|].
    split; [constructor; [repeat split; assumption | exact Hpre]|].
    rewrite E in Hl. cbn [fst] in Hl. cbn [List.length]. rewrite Hl.
    repeat split; assumption || reflexivity.
  - discriminate.
Qed.

(** [spawn_and_respawn_server] returns 0 only when a child's death is
    classified as not needing a respawn; every child before it was
    forked, waited for and respawned, and exactly one argument vector
    was used per child. *)
Theorem spawn_and_respawn_server_rc_zero (limit : Z) (pathname : string) (args : list string)
    (fd : Z) (init_dup_ok socket_dup_ok : bool) (runs : list child_run) :
  snd (spawn_and_respawn_server limit pathname args fd init_dup_ok socket_dup_ok runs) = Some 0 ->
  exists pre r post, runs = pre ++ r :: post /\
    Forall (fun r' => fork_ok r' = true /\ wait_ok r' = true /\
                      after_child_death limit (status r') (start_error r') (end_error r')
                        (start_sec r') (end_sec r') = Respawn) pre /\
    fork_ok r = true /\ wait_ok r = true /\
    after_child_death limit (status r) (start_error r) (end_error r) (start_sec r) (end_sec r)
      = NoRespawn /\
    List.length (fst (spawn_and_respawn_server limit pathname args fd init_dup_ok socket_dup_ok runs))
      = S (List.length pre).
Proof. apply respawn_loop_rc_zero. Qed.

Lemma spawn_and_respawn_server_rc_zero_witness :
  exists pre r post, [run_exit (killed_by SIGSEGV) true; run_exit 0 true] = pre ++ r :: post /\
    Forall (fun r' => fork_ok r' = true /\ wait_ok r' = true /\
                      after_child_death 5 (status r') (start_error r') (end_error r')
                        (start_sec r') (end_sec r') = Respawn) pre /\
    fork_ok r = true /\ wait_ok r = true /\
    after_child_death 5 (status r) (start_error r) (end_error r) (start_sec r) (end_sec r)
      = NoRespawn /\
    List.length (fst (spawn_and_respawn_server 5 "mds-server"%string [] 3 true true
                        [run_exit (killed_by SIGSEGV) true; run_exit 0 true]))
      = S (List.length pre).
Proof.
  apply (spawn_and_respawn_server_rc_zero 5 "mds-server"%string [] 3 true true). reflexivity.
Defined.

(** *** The PID file *)

Lemma list_ascii_app (a b : string) :
  list_ascii_of_string (a ++ b) = list_ascii_of_string a ++ list_ascii_of_string b.
Proof. induction a as [|c a IH]; [reflexivity|]. cbn. rewrite IH. reflexivity. Qed.

Lemma digit_low_bits (n : Z) :
  Z.land (Registry.byte_of (ascii_of_nat (48 + Z.to_nat (n mod 10)))) 15 = n mod 10.
Proof.
  unfold Registry.byte_of. rewrite RegistryExtra.digit_nat.
  pose proof (Z.mod_pos_bound n 10 ltac:(lia)).
  change 15 with (Z.ones 4). rewrite Z.land_ones by lia.
  replace (Z.of_nat (48 + Z.to_nat (n mod 10))) with (n mod 10 + 3 * 2 ^ 4) by lia.
  rewrite Z.mod_add by lia. apply Z.mod_small. lia.
Qed.

Lemma pid_scan_dec_digits (f : nat) : forall n acc,
  0 <= n < 10 ^ Z.of_nat f -> n <= INT32_MAX ->
  pid_scan (list_ascii_of_string (Registry.dec_digits f n acc)) 0 =
  pid_scan (list_ascii_of_string acc) n.
Proof.
  induction f as [|f IH]; intros n acc Hn Hmax.
  - simpl in Hn. assert (n = 0) as -> by lia. reflexivity.
  - rewrite RegistryExtra.pow10_succ in Hn. cbn [Registry.dec_digits].
    destruct (Z.ltb_spec n 10) as [Hlt|Hge].
    + cbn [list_ascii_of_string pid_scan]. rewrite RegistryExtra.digit_is_digit, digit_low_bits.
      rewrite Z.mod_small by lia. cbn [Z.mul Z.add].
      destruct (Z.ltb_spec INT32_MAX n); [lia | reflexivity].
    + rewrite IH.
      * cbn [list_ascii_of_string pid_scan]. rewrite RegistryExtra.digit_is_digit, digit_low_bits.
        pose proof (Z.div_mod n 10 ltac:(lia)).
        replace (n / 10 * 10 + n mod 10) with n by lia.
        destruct (Z.ltb_spec INT32_MAX n); [lia | reflexivity].
      * split; [apply Z.div_pos; lia|]. apply Z.div_lt_upper_bound; lia.
      * assert (n / 10 <= n) by (apply Z.div_le_upper_bound; lia). lia.
Qed.

(** The PID file [main] writes for its own PID passes the check [main]
    applies to an existing PID file: the PID read back is the one
    written. *)
Theorem pid_file_roundtrip (pid : Z) :
  0 <= pid <= INT32_MAX ->
  pid_file_check (list_ascii_of_string (pid_file_contents pid)) true = PidValue pid.
Proof.
  intros H. unfold pid_file_check, pid_file_contents. cbn [negb].
  rewrite list_ascii_app. change (list_ascii_of_string Registry.nl) with [ascii_of_nat 10].
  rewrite rev_unit, removelast_last.
  rewrite RegistryExtra.dec_nonneg by lia.
  assert (Hb : INT32_MAX < 10 ^ Z.of_nat 64) by (vm_compute; reflexivity).
  rewrite pid_scan_dec_digits by lia. cbn [list_ascii_of_string pid_scan].
  rewrite Ascii.eqb_refl. reflexivity.
Qed.

Lemma pid_file_roundtrip_witness :
  pid_file_check (list_ascii_of_string (pid_file_contents 4242)) true = PidValue 4242.
Proof. apply pid_file_roundtrip. unfold INT32_MAX. lia. Defined.




End MdsMainExtra.

(** ** Further properties of linked lists *)
Module LinkedListExtra.
Import LinkedList.

(** The array [a] with element [i] replaced by [v], as [arr_set] builds it. *)
Definition upd (a : list Z) (i v : Z) : list Z :=
  firstn (Z.to_nat i) a ++ v :: skipn (S (Z.to_nat i)) a.

(** The state [linked_list_get_next] leaves for [node]: the ring is
    intact, [node] is a slot below [end] off the ring and off the free
    stack, and every other slot below [end] off the ring is unused. *)
Definition ll_pre (t : linked_list) (ring : list Z) (node : Z) : Prop :=
  NoDup (0 :: ring) /\ ~ In node (0 :: ring) /\ 0 <= node < end_ t /\
  Forall (fun s => 0 <= s < end_ t) (0 :: ring) /\
  linked (next t) (previous t) (0 :: ring ++ [0]) /\
  (forall s, 0 <= s < end_ t -> s <> node -> ~ In s (0 :: ring) ->
             nth (Z.to_nat s) (next t) 0 = LINKED_LIST_UNUSED) /\
  0 <= reuse_head t /\
  Forall (fun s => 0 <= s < end_ t /\ s <> node /\ ~ In s (0 :: ring))
         (firstn (Z.to_nat (reuse_head t)) (reusable t)) /\
  NoDup (firstn (Z.to_nat (reuse_head t)) (reusable t)) /\
  (Z.to_nat (reuse_head t) <= length (reusable t))%nat /\
  end_ t <= capacity t /\ capacity t < 2 ^ 62 /\
  length (values t) = Z.to_nat (capacity t) /\
  length (next t) = Z.to_nat (capacity t) /\
  length (previous t) = Z.to_nat (capacity t) /\
  length (reusable t) = Z.to_nat (capacity t).

Lemma arr_get_ok (a : list Z) (i : Z) :
  0 <= i < Z.of_nat (length a) -> arr_get a i = Ok (nth (Z.to_nat i) a 0).
Proof.
  intros H. unfold arr_get, in_bounds.
  destruct (Z.leb_spec 0 i); [|lia].
  destruct (Z.ltb_spec i (Z.of_nat (length a))); [reflexivity | lia].
Qed.

Lemma arr_set_ok (a : list Z) (i v : Z) :
  0 <= i < Z.of_nat (length a) -> arr_set a i v = Ok (upd a i v).
Proof.
  intros H. unfold arr_set, in_bounds, upd.
  destruct (Z.leb_spec 0 i); [|lia].
  destruct (Z.ltb_spec i (Z.of_nat (length a))); [reflexivity | lia].
Qed.

Lemma upd_length (a : list Z) (i v : Z) :
  0 <= i < Z.of_nat (length a) -> length (upd a i v) = length a.
Proof.
  intros H. unfold upd. rewrite length_app. cbn [length].
  rewrite length_firstn, length_skipn. lia.
Qed.

Lemma nth_upd_nat (a : list Z) : forall (n m : nat) (v : Z), (n < length a)%nat ->
  nth m (firstn n a ++ v :: skipn (S n) a) 0 = if Nat.eqb m n then v else nth m a 0.
Proof.
  induction a as [|x a IH]; intros n m v H; [cbn in H; lia|].
  destruct n as [|n], m as [|m]; cbn [firstn skipn app nth Nat.eqb]; try reflexivity.
  apply IH. cbn in H. lia.
Qed.

Lemma nth_upd (a : list Z) (i v j : Z) :
  0 <= i < Z.of_nat (length a) -> 0 <= j ->
  nth (Z.to_nat j) (upd a i v) 0 = if j =? i then v else nth (Z.to_nat j) a 0.
Proof.
  intros Hi Hj. unfold upd. rewrite nth_upd_nat by lia.
  destruct (Nat.eqb_spec (Z.to_nat j) (Z.to_nat i)), (Z.eqb_spec j i); reflexivity || lia.
Qed.

Lemma nth_upd_other (a : list Z) (i v j : Z) :
  0 <= i < Z.of_nat (length a) -> 0 <= j -> j <> i ->
  nth (Z.to_nat j) (upd a i v) 0 = nth (Z.to_nat j) a 0.
Proof.
  intros Hi Hj Hne. rewrite nth_upd by assumption.
  destruct (Z.eqb_spec j i); [contradiction | reflexivity].
Qed.

Lemma nth_upd_same (a : list Z) (i v : Z) :
  0 <= i < Z.of_nat (length a) -> nth (Z.to_nat i) (upd a i v) 0 = v.
Proof. intros Hi. rewrite nth_upd by lia. rewrite Z.eqb_refl. reflexivity. Qed.

Lemma realloc_grow (a : list Z) (n : Z) :
  (length a <= Z.to_nat n)%nat ->
  length (arr_realloc true a n) = Z.to_nat n /\
  forall s, 0 <= s < Z.of_nat (length a) ->
            nth (Z.to_nat s) (arr_realloc true a n) 0 = nth (Z.to_nat s) a 0.
Proof.
  intros H. unfold arr_realloc. rewrite firstn_all2 by exact H. split.
  - rewrite length_app, repeat_length. lia.
  - intros s Hs. apply app_nth1. lia.
Qed.

Lemma linked_app (ns ps : list Z) (l1 : list Z) (x : Z) (l2 : list Z) :
  linked ns ps (l1 ++ x :: l2) <-> linked ns ps (l1 ++ [x]) /\ linked ns ps (x :: l2).
Proof.
  induction l1 as [|a l1 IH].
  - cbn [app linked]. tauto.
  - destruct l1 as [|b l1].
    + cbn [app linked]. tauto.
    + change ((a :: b :: l1) ++ x :: l2) with (a :: ((b :: l1) ++ x :: l2)).
      change ((a :: b :: l1) ++ [x]) with (a :: ((b :: l1) ++ [x])).
      cbn [app linked]. cbn [app] in IH. rewrite IH. tauto.
Qed.

Lemma linked_cons2 (ns ps : list Z) (a b : Z) (l : list Z) :
  linked ns ps (a :: b :: l) <->
  nth (Z.to_nat a) ns 0 = b /\ nth (Z.to_nat b) ps 0 = a /\ linked ns ps (b :: l).
Proof. reflexivity. Qed.

Lemma linked_prefix (ns ps : list Z) (l1 l2 : list Z) :
  linked ns ps (l1 ++ l2) -> linked ns ps l1.
Proof.
  induction l1 as [|a l1 IH]; [intros; exact I|].
  destruct l1 as [|b l1]; [intros; exact I|].
  cbn [app linked]. intros [H1 [H2 H3]]. split; [exact H1 | split; [exact H2 | apply IH; exact H3]].
Qed.

Lemma linked_ext (ns ps ns' ps' : list Z) (path : list Z) :
  (forall a, In a (removelast path) -> nth (Z.to_nat a) ns' 0 = nth (Z.to_nat a) ns 0) ->
  (forall b, In b (tl path) -> nth (Z.to_nat b) ps' 0 = nth (Z.to_nat b) ps 0) ->
  linked ns ps path -> linked ns' ps' path.
Proof.
  induction path as [|a path IH]; [intros; exact I|].
  destruct path as [|b rest]; [intros; exact I|].
  intros HN HP [H1 [H2 H3]].
  change (removelast (a :: b :: rest)) with (a :: removelast (b :: rest)) in HN.
  cbn [tl] in HP. cbn [linked].
  split; [rewrite HN; [exact H1 | left; reflexivity]|].
  split; [rewrite HP; [exact H2 | left; reflexivity]|].
  apply IH; [| | exact H3].
  - intros x Hx. apply HN. right. exact Hx.
  - intros x Hx. apply HP. destruct rest; [destruct Hx | right; exact Hx].
Qed.

Lemma nodup_disj (l1 l2 : list Z) (x : Z) :
  NoDup (l1 ++ l2) -> In x l1 -> ~ In x l2.
Proof.
  induction l1 as [|a l1 IH]; [intros _ []|].
  intros H [->|Hx]; inversion H as [|? ? Hn Hd]; subst.
  - intros Hin. apply Hn. apply in_or_app. right. exact Hin.
  - apply IH; assumption.
Qed.

Lemma nodup_rotate (x : Z) (l : list Z) : NoDup (x :: l) -> NoDup (l ++ [x]).
Proof. apply Permutation_NoDup. apply Permutation_cons_append. Qed.

Lemma firstn_snoc (l : list Z) (n : nat) :
  (n < length l)%nat -> firstn (S n) l = firstn n l ++ [nth n l 0].
Proof.
  revert n. induction l as [|a l IH]; intros n H; [cbn in H; lia|].
  destruct n as [|n]; [reflexivity|].
  change (firstn (S (S n)) (a :: l)) with (a :: firstn (S n) l).
  rewrite IH by (cbn in H; lia). reflexivity.
Qed.

Lemma get_next_pre (t : linked_list) (ring vals : list Z) :
  ll_repr t ring vals -> capacity t < 2 ^ 61 ->
  exists node t1, linked_list_get_next [] t = Ok (node, t1) /\ ll_pre t1 ring node /\
    map (fun s => nth (Z.to_nat s) (values t1) 0) ring = vals /\
    end_ t <= end_ t1.
Proof.
  intros [Hnd [Hall [Hlk [Hv [Hun [Hrh [Hfree [Hfnd [Hrl [Hend [Hcap [Hlv [Hln [Hlp Hlr]]]]]]]]]]]]]] Hc.
  unfold linked_list_get_next.
  destruct (Z.ltb_spec 0 (reuse_head t)) as [Hpos|Hzero].
  - (* pop the free stack *)
    set (rh := reuse_head t) in *.
    assert (Hf : firstn (Z.to_nat rh) (reusable t) =
                 firstn (Z.to_nat (rh - 1)) (reusable t) ++
                 [nth (Z.to_nat (rh - 1)) (reusable t) 0]).
    { replace (Z.to_nat rh) with (S (Z.to_nat (rh - 1))) by lia.
      apply firstn_snoc. lia. }
    set (node := nth (Z.to_nat (rh - 1)) (reusable t) 0) in *.
    rewrite arr_get_ok by lia. cbn [bind].
    exists node, (set_reuse_head t (rh - 1)). split; [reflexivity|].
    rewrite Hf in Hfree, Hfnd.
    apply Forall_app in Hfree as [Hfree1 Hfree2].
    inversion_clear Hfree2 as [|? ? [Hnb Hnn] _].
    apply NoDup_remove in Hfnd as [Hfnd1 Hfnd2]. rewrite app_nil_r in Hfnd1, Hfnd2.
    unfold ll_pre.
    cbn [set_reuse_head end_ next previous values reusable capacity reuse_head].
    repeat split; try assumption; try lia.
    + intros s Hs Hne Hnin. apply Hun; assumption.
    + apply Forall_forall. intros s Hs.
      rewrite Forall_forall in Hfree1. destruct (Hfree1 s Hs) as [Hs1 Hs2].
      repeat split; try assumption; try lia.
      intros ->. contradiction.
  - (* take slot [end] *)
    assert (Hrh0 : reuse_head t = 0) by lia.
    assert (Hend0 : 0 < end_ t) by (inversion Hall as [|? ? H0 _]; lia).
    assert (Hnotin : ~ In (end_ t) (0 :: ring)).
    { intros Hin. rewrite Forall_forall in Hall. specialize (Hall _ Hin). lia. }
    assert (Hfree0 : firstn (Z.to_nat (reuse_head t)) (reusable t) = []) by (rewrite Hrh0; reflexivity).
    destruct (Z.eqb_spec (end_ t) (capacity t)) as [Hfull|Hroom].
    + (* grow the four arrays *)
      set (cap := wrap64 (Z.shiftl (capacity t) 1)).
      assert (Hcapv : cap = capacity t * 2).
      { unfold cap. rewrite ClientListProofs.shiftl1.
        apply PowerOfTwo.wrap64_small. lia. }
      cbn [nth negb].
      destruct t as [c e rh ed ru va ne pr];
        cbn [end_ next previous values reusable capacity reuse_head] in *.
      exists e. eexists. split; [reflexivity|]. unfold ll_pre.
      destruct (realloc_grow va cap ltac:(lia)) as [Hlv' Hnv].
      destruct (realloc_grow ne cap ltac:(lia)) as [Hln' Hnn].
      destruct (realloc_grow pr cap ltac:(lia)) as [Hlp' Hnp].
      destruct (realloc_grow ru cap ltac:(lia)) as [Hlr' Hnr].
      cbn [set_end set_reusable set_previous set_next set_values set_capacity
           end_ next previous values reusable capacity reuse_head].
      rewrite Hrh0 in *.
      assert (Hin : forall s, In s (0 :: ring) -> 0 <= s < e)
        by (rewrite Forall_forall in Hall; exact Hall).
      repeat split.
      * exact Hnd.
      * exact Hnotin.
      * lia.
      * lia.
      * apply Forall_forall. intros s Hs. specialize (Hin s Hs). lia.
      * apply (linked_ext ne pr); [| | exact Hlk].
        -- intros a Ha. apply Hnn.
           assert (In a (0 :: ring)).
           { destruct ring as [|r ring']; [destruct Ha as [<-|[]]; left; reflexivity|].
             change (0 :: (r :: ring') ++ [0]) with ((0 :: r :: ring') ++ [0]) in Ha.
             rewrite removelast_last in Ha. exact Ha. }
           specialize (Hin a H). lia.
        -- intros b Hb. apply Hnp.
           assert (In b (0 :: ring)).
           { cbn [tl] in Hb. apply in_app_or in Hb as [Hb|[<-|[]]]; [right; exact Hb | left; reflexivity]. }
           specialize (Hin b H). lia.
      * intros s Hs Hne Hnin. rewrite Hnn by lia. apply Hun; [lia | exact Hnin].
      * lia.
      * constructor.
      * constructor.
      * cbn. lia.
      * lia.
      * lia.
      * rewrite Hlv'. reflexivity.
      * rewrite Hln'. reflexivity.
      * rewrite Hlp'. reflexivity.
      * rewrite Hlr'. reflexivity.
      * rewrite <- Hv. apply map_ext_in. intros s Hs. apply Hnv.
        assert (0 <= s < e) by (apply Hin; right; exact Hs). lia.
      * lia.
    + destruct t as [c e rh ed ru va ne pr]; cbn in *.
      exists e. eexists. split; [reflexivity|]. unfold ll_pre.
      cbn [set_end end_ next previous values reusable capacity reuse_head].
      rewrite Hrh0 in *.
      repeat split; try assumption; try lia.
      * apply Forall_forall. intros s Hs. rewrite Forall_forall in Hall. specialize (Hall s Hs). lia.
      * intros s Hs Hne Hnin. apply Hun; [lia | exact Hnin].
      * constructor.
Qed.

Lemma firstn_skipn_app (l1 l2 : list Z) :
  firstn (length l1) (l1 ++ l2) = l1 /\ skipn (length l1) (l1 ++ l2) = l2.
Proof.
  induction l1 as [|a l1 IH]; [split; reflexivity|].
  cbn [length firstn skipn app]. destruct IH as [-> ->]. split; reflexivity.
Qed.

Lemma in_middle (x s : Z) (l1 l2 : list Z) :
  In s (l1 ++ x :: l2) -> s = x \/ In s (l1 ++ l2).
Proof.
  intros H. apply (Permutation_in _ (Permutation_sym (Permutation_middle l1 l2 x))) in H.
  destruct H as [->|H]; [left; reflexivity | right; exact H].
Qed.

Lemma nodup_middle (x : Z) (l1 l2 : list Z) :
  NoDup (l1 ++ l2) -> ~ In x (l1 ++ l2) -> NoDup (l1 ++ x :: l2).
Proof.
  intros Hd Hn. apply (Permutation_NoDup (Permutation_middle l1 l2 x)).
  constructor; assumption.
Qed.

(** [linked_list_insert_after] with every [realloc] succeeding, on a
    well-formed list whose ring is [pre ++ post], inserting after the
    last slot of [0 :: pre] (the sentinel when [pre] is empty): it takes
    a slot off the ring and returns it, and the list is well formed with
    that slot between [pre] and [post] and [value] at that position of
    the values.  (A hypothesis bounds the capacity so that doubling it
    stays below [2^62].) *)
Theorem linked_list_insert_after_repr (t : linked_list) (ring vals pre post : list Z) (value : Z) :
  ll_repr t ring vals -> ring = pre ++ post -> capacity t < 2 ^ 61 ->
  exists node t',
    linked_list_insert_after [] t value (last (0 :: pre) 0) = Ok (node, t') /\
    ~ In node (0 :: ring) /\
    ll_repr t' (pre ++ node :: post)
            (firstn (length pre) vals ++ value :: skipn (length pre) vals).
Proof.
  intros Hr Hring Hc.
  destruct (get_next_pre t ring vals Hr Hc) as [node [t1 [Hg [Hp [Hv _]]]]].
  destruct Hp as [Hnd [Hnin [Hnode [Hall [Hlk [Hun [Hrh [Hfree [Hfnd [Hrl
                 [Hend [Hcap [Hlv [Hln [Hlp Hlr]]]]]]]]]]]]]]].
  subst ring.
  assert (Hne0 : 0 :: pre <> []) by discriminate.
  destruct (exists_last Hne0) as [A' [p E]].
  assert (Hlast : last (0 :: pre) 0 = p) by (rewrite E; apply last_last).
  rewrite Hlast.
  assert (Hb : exists np B', post ++ [0] = np :: B')
    by (destruct post as [|x l]; [exists 0, []; reflexivity | exists x, (l ++ [0]); reflexivity]).
  destruct Hb as [np [B' Hb]].
  assert (Hpath : 0 :: (pre ++ post) ++ [0] = (A' ++ [p]) ++ np :: B').
  { rewrite <- E, <- Hb. cbn [app]. rewrite app_assoc. reflexivity. }
  assert (Hin : forall s, In s (0 :: pre ++ post) -> 0 <= s < end_ t1)
    by (rewrite Forall_forall in Hall; exact Hall).
  assert (Hin_pre : forall s, In s (0 :: pre) -> In s (0 :: pre ++ post))
    by (intros s [->|Hs]; [left; reflexivity | right; apply in_or_app; left; exact Hs]).
  assert (Hin_post : forall s, In s (post ++ [0]) -> In s (0 :: pre ++ post))
    by (intros s Hs; apply in_app_or in Hs as [Hs|[<-|[]]];
        [right; apply in_or_app; right; exact Hs | left; reflexivity]).
  assert (Hpin : In p (0 :: pre)) by (rewrite E; apply in_or_app; right; left; reflexivity).
  assert (Hnpin : In np (post ++ [0])) by (rewrite Hb; left; reflexivity).
  pose proof (Hin p (Hin_pre p Hpin)) as Hpb.
  pose proof (Hin np (Hin_post np Hnpin)) as Hnpb.
  assert (Hnp : node <> p) by (intros ->; apply Hnin; apply Hin_pre; exact Hpin).
  assert (Hnnp : node <> np) by (intros ->; apply Hnin; apply Hin_post; exact Hnpin).
  (* disjointness of the two halves of the ring *)
  assert (Hd1 : NoDup ((0 :: pre) ++ post)) by exact Hnd.
  assert (Hd2 : NoDup (pre ++ post ++ [0])).
  { rewrite app_assoc. apply nodup_rotate. exact Hnd. }
  assert (HdA : NoDup (A' ++ [p])) by (rewrite <- E; exact (NoDup_app_remove_r _ _ Hd1)).
  assert (HdB : NoDup (np :: B')) by (rewrite <- Hb; exact (NoDup_app_remove_l _ _ Hd2)).
  (* the links around the insertion point *)
  rewrite Hpath in Hlk.
  apply linked_app in Hlk as [HlA HlB].
  pose proof (linked_prefix _ _ (A' ++ [p]) [np] HlA) as HlA'.
  rewrite <- app_assoc in HlA. cbn [app] in HlA.
  apply linked_app in HlA as [_ Hpnp]. cbn [linked] in Hpnp. destruct Hpnp as [HNp [HPnp _]].
  (* run the writes *)
  exists node.
  unfold linked_list_insert_after. rewrite Hg. cbn [bind].
  rewrite (arr_set_ok (values t1) node value) by lia.
  cbn [bind set_values set_next set_previous values next previous].
  rewrite (arr_get_ok (next t1) p) by lia. rewrite HNp.
  cbn [bind].
  rewrite (arr_set_ok (next t1) node np) by lia.
  cbn [bind set_values set_next set_previous values next previous].
  assert (Hl1 : length (upd (next t1) node np) = length (next t1)) by (apply upd_length; lia).
  rewrite (arr_set_ok (upd (next t1) node np) p node) by lia.
  cbn [bind set_values set_next set_previous values next previous].
  rewrite (arr_set_ok (previous t1) node p) by lia.
  cbn [bind set_values set_next set_previous values next previous].
  assert (Hl2 : length (upd (upd (next t1) node np) p node) = length (next t1))
    by (rewrite upd_length; lia).
  assert (Hl3 : length (upd (previous t1) node p) = length (previous t1)) by (apply upd_length; lia).
  assert (Hl4 : length (upd (upd (previous t1) node p) np node) = length (previous t1))
    by (rewrite upd_length; lia).
  assert (Hl5 : length (upd (values t1) node value) = length (values t1)) by (apply upd_length; lia).
  rewrite (arr_get_ok (upd (upd (next t1) node np) p node) node) by lia.
  rewrite (nth_upd_other _ p node node) by lia.
  rewrite (nth_upd_same (next t1) node np) by lia.
  cbn [bind].
  rewrite (arr_set_ok (upd (previous t1) node p) np node) by lia.
  cbn [bind].
  eexists. split; [reflexivity|]. split; [exact Hnin|].
  (* the new arrays, slot by slot *)
  assert (HN' : forall s, 0 <= s -> s <> p -> s <> node ->
            nth (Z.to_nat s) (upd (upd (next t1) node np) p node) 0 = nth (Z.to_nat s) (next t1) 0).
  { intros s Hs H1 H2. rewrite nth_upd_other by lia. apply nth_upd_other; lia. }
  assert (HP' : forall s, 0 <= s -> s <> np -> s <> node ->
            nth (Z.to_nat s) (upd (upd (previous t1) node p) np node) 0 =
            nth (Z.to_nat s) (previous t1) 0).
  { intros s Hs H1 H2. rewrite nth_upd_other by lia. apply nth_upd_other; lia. }
  assert (HV' : forall s, 0 <= s -> s <> node ->
            nth (Z.to_nat s) (upd (values t1) node value) 0 = nth (Z.to_nat s) (values t1) 0).
  { intros s Hs H1. apply nth_upd_other; lia. }
  assert (Hnew : forall s, In s (0 :: pre ++ node :: post) -> s = node \/ In s (0 :: pre ++ post)).
  { intros s [<-|Hs]; [right; left; reflexivity|].
    apply in_middle in Hs as [->|Hs]; [left; reflexivity | right; right; exact Hs]. }
  unfold ll_repr.
  cbn [set_values set_next set_previous values next previous end_ capacity reuse_head reusable].
  split; [|split; [|split; [|split; [|split; [|split; [|split; [|split; [|split;
    [|split; [|split; [|split; [|split; [|split]]]]]]]]]]]]].
  - change (NoDup ((0 :: pre) ++ node :: post)). apply nodup_middle; assumption.
  - apply Forall_forall. intros s Hs. apply Hnew in Hs as [->|Hs]; [lia | apply Hin; exact Hs].
  - replace (0 :: (pre ++ node :: post) ++ [0]) with ((A' ++ [p]) ++ node :: np :: B')
      by (rewrite <- E, <- Hb; cbn [app]; rewrite <- app_assoc; reflexivity).
    apply linked_app. split.
    + rewrite <- app_assoc. cbn [app]. apply linked_app. split.
      * apply (linked_ext (next t1) (previous t1)); [| | exact HlA'].
        -- intros a Ha. rewrite removelast_last in Ha.
           assert (Hap : a <> p)
             by (intros ->; pose proof (NoDup_remove_2 A' [] p HdA) as Hx;
                 rewrite app_nil_r in Hx; exact (Hx Ha)).
           assert (HaI : In a (0 :: pre)) by (rewrite E; apply in_or_app; left; exact Ha).
           assert (Han : a <> node) by (intros ->; apply Hnin; apply Hin_pre; exact HaI).
           pose proof (Hin a (Hin_pre a HaI)). apply HN'; lia.
        -- intros b Hb'. rewrite <- E in Hb'. cbn [tl] in Hb'.
           assert (Hbnp : b <> np).
           { intros ->. apply (nodup_disj pre (post ++ [0]) np Hd2 Hb'). exact Hnpin. }
           assert (Hbn : b <> node) by (intros ->; apply Hnin; right; apply in_or_app; left; exact Hb').
           pose proof (Hin b (or_intror (in_or_app _ _ _ (or_introl Hb')))). apply HP'; lia.
      * cbn [linked]. split; [|split; [|exact I]].
        -- apply nth_upd_same. lia.
        -- rewrite nth_upd_other by lia. apply nth_upd_same. lia.
    + apply linked_cons2. split; [|split].
      * rewrite nth_upd_other by lia. apply nth_upd_same. lia.
      * apply nth_upd_same. lia.
      * apply (linked_ext (next t1) (previous t1)); [| | exact HlB].
        -- intros a Ha. rewrite <- Hb, removelast_last in Ha.
           assert (Hap : a <> p).
           { intros ->. apply (nodup_disj (0 :: pre) post p Hd1 Hpin). exact Ha. }
           assert (Han : a <> node) by (intros ->; apply Hnin; right; apply in_or_app; right; exact Ha).
           pose proof (Hin a (or_intror (in_or_app _ _ _ (or_intror Ha)))). apply HN'; lia.
        -- intros b Hb'. cbn [tl] in Hb'.
           assert (Hbnp : b <> np) by (intros ->; inversion HdB; contradiction).
           assert (HbI : In b (post ++ [0])) by (rewrite Hb; right; exact Hb').
           assert (Hbn : b <> node) by (intros ->; apply Hnin; apply Hin_post; exact HbI).
           pose proof (Hin b (Hin_post b HbI)). apply HP'; lia.
  - rewrite <- Hv, !map_app. cbn [map].
    destruct (firstn_skipn_app (map (fun s => nth (Z.to_nat s) (values t1) 0) pre)
                (map (fun s => nth (Z.to_nat s) (values t1) 0) post)) as [Hf Hs].
    rewrite length_map in Hf, Hs. rewrite Hf, Hs.
    rewrite nth_upd_same by lia. f_equal; [|f_equal].
    + apply map_ext_in. intros s Hs'.
      pose proof (Hin s (or_intror (in_or_app _ _ _ (or_introl Hs')))).
      apply HV'; [lia|]. intros ->. apply Hnin. right. apply in_or_app. left. exact Hs'.
    + apply map_ext_in. intros s Hs'.
      pose proof (Hin s (or_intror (in_or_app _ _ _ (or_intror Hs')))).
      apply HV'; [lia|]. intros ->. apply Hnin. right. apply in_or_app. right. exact Hs'.
  - intros s Hs Hsn.
    assert (Hs1 : s <> node) by (intros ->; apply Hsn; right; apply in_or_app; right; left; reflexivity).
    assert (Hs2 : ~ In s (0 :: pre ++ post)).
    { intros [H0|H0]; apply Hsn; [left; exact H0|].
      right. apply in_app_or in H0 as [H0|H0]; apply in_or_app; [left | right; right]; exact H0. }
    assert (Hs3 : s <> p) by (intros ->; apply Hs2; apply Hin_pre; exact Hpin).
    rewrite HN' by lia. apply Hun; assumption.
  - exact Hrh.
  - apply Forall_forall. intros s Hs. rewrite Forall_forall in Hfree.
    destruct (Hfree s Hs) as [Hs1 [Hs2 Hs3]]. split; [exact Hs1|].
    intros Hs4. apply Hnew in Hs4 as [->|Hs4]; contradiction.
  - exact Hfnd.
  - exact Hrl.
  - exact Hend.
  - exact Hcap.
  - lia.
  - lia.
  - lia.
  - exact Hlr.
Qed.

Lemma skipn_app_cons (l1 l2 : list Z) (x : Z) :
  skipn (S (length l1)) (l1 ++ x :: l2) = l2.
Proof. induction l1 as [|a l1 IH]; [reflexivity|]. exact IH. Qed.

Lemma firstn_upd (a : list Z) (i v : Z) :
  0 <= i < Z.of_nat (length a) -> firstn (Z.to_nat i) (upd a i v) = firstn (Z.to_nat i) a.
Proof.
  intros H. unfold upd.
  assert (Hl : length (firstn (Z.to_nat i) a) = Z.to_nat i) by (rewrite length_firstn; lia).
  rewrite <- Hl at 1. apply firstn_skipn_app.
Qed.

Lemma nodup_app_intro (l1 l2 : list Z) :
  NoDup l1 -> NoDup l2 -> (forall x, In x l1 -> ~ In x l2) -> NoDup (l1 ++ l2).
Proof.
  induction l1 as [|a l1 IH]; intros H1 H2 Hd; [exact H2|].
  inversion H1 as [|? ? Hn H1']; subst. cbn [app]. constructor.
  - intros Hin. apply in_app_or in Hin as [Hin|Hin]; [contradiction|].
    apply (Hd a); [left; reflexivity | exact Hin].
  - apply IH; [exact H1' | exact H2 |]. intros x Hx. apply Hd. right. exact Hx.
Qed.

(** Distinct slots below [end] are at most [end] many. *)
Lemma nodup_slots_length (l : list Z) (e : Z) :
  0 <= e -> NoDup l -> Forall (fun s => 0 <= s < e) l -> Z.of_nat (length l) <= e.
Proof.
  intros He Hd Hb.
  assert (Hi : incl l (map Z.of_nat (seq 0 (Z.to_nat e)))).
  { intros x Hx. rewrite Forall_forall in Hb. specialize (Hb x Hx).
    apply in_map_iff. exists (Z.to_nat x). split; [lia|]. apply in_seq. lia. }
  pose proof (NoDup_incl_length Hd Hi) as Hl.
  rewrite length_map, length_seq in Hl. lia.
Qed.

(** [linked_list_remove] of a slot of the ring of a well-formed list:
    the list stays well formed with the slot taken out of the ring and
    its value out of the values, and the slot is pushed on the free
    stack, where the next [linked_list_get_next] finds it. *)
Theorem linked_list_remove_repr (t : linked_list) (pre post vals : list Z) (node : Z) :
  ll_repr t (pre ++ node :: post) vals ->
  exists t', linked_list_remove t node = Ok t' /\
    ll_repr t' (pre ++ post) (firstn (length pre) vals ++ skipn (S (length pre)) vals) /\
    reuse_head t' = reuse_head t + 1 /\
    nth (Z.to_nat (reuse_head t)) (reusable t') 0 = node.
Proof.
  intros [Hnd [Hall [Hlk [Hv [Hun [Hrh [Hfree [Hfnd [Hrl [Hend [Hcap [Hlv [Hln [Hlp Hlr]]]]]]]]]]]]]].
  assert (Hne0 : 0 :: pre <> []) by discriminate.
  destruct (exists_last Hne0) as [A' [p E]].
  assert (Hb : exists np B', post ++ [0] = np :: B')
    by (destruct post as [|x l]; [exists 0, []; reflexivity | exists x, (l ++ [0]); reflexivity]).
  destruct Hb as [np [B' Hb]].
  assert (Hin : forall s, In s (0 :: pre ++ node :: post) -> 0 <= s < end_ t)
    by (rewrite Forall_forall in Hall; exact Hall).
  assert (Hin_pre : forall s, In s (0 :: pre) -> In s (0 :: pre ++ node :: post))
    by (intros s [->|Hs]; [left; reflexivity | right; apply in_or_app; left; exact Hs]).
  assert (Hin_post : forall s, In s (post ++ [0]) -> In s (0 :: pre ++ node :: post))
    by (intros s Hs; apply in_app_or in Hs as [Hs|[<-|[]]];
        [right; apply in_or_app; right; right; exact Hs | left; reflexivity]).
  assert (Hnode_in : In node (0 :: pre ++ node :: post))
    by (right; apply in_or_app; right; left; reflexivity).
  assert (Hpin : In p (0 :: pre)) by (rewrite E; apply in_or_app; right; left; reflexivity).
  assert (Hnpin : In np (post ++ [0])) by (rewrite Hb; left; reflexivity).
  pose proof (Hin p (Hin_pre p Hpin)) as Hpb.
  pose proof (Hin np (Hin_post np Hnpin)) as Hnpb.
  pose proof (Hin node Hnode_in) as Hnb.
  assert (Hd1 : NoDup ((0 :: pre) ++ node :: post)) by exact Hnd.
  assert (Hnout : ~ In node ((0 :: pre) ++ post)) by exact (NoDup_remove_2 _ _ _ Hd1).
  assert (Hd0 : NoDup ((0 :: pre) ++ post)) by exact (NoDup_remove_1 _ _ _ Hd1).
  assert (Hd2 : NoDup (pre ++ post ++ [0])).
  { rewrite app_assoc. apply nodup_rotate. exact Hd0. }
  assert (HdA : NoDup (A' ++ [p])) by (rewrite <- E; exact (NoDup_app_remove_r _ _ Hd0)).
  assert (HdB : NoDup (np :: B')) by (rewrite <- Hb; exact (NoDup_app_remove_l _ _ Hd2)).
  assert (Hnp : node <> p) by (intros ->; apply Hnout; apply in_or_app; left; exact Hpin).
  assert (Hnnp : node <> np).
  { intros ->. apply in_app_or in Hnpin as [H|[H|[]]].
    - apply Hnout. apply in_or_app. right. exact H.
    - apply Hnout. left. exact H. }
  (* pigeonhole: the free stack has room for one more slot *)
  assert (Hroom : reuse_head t + 1 < capacity t).
  { assert (HdL : NoDup (firstn (Z.to_nat (reuse_head t)) (reusable t) ++ 0 :: pre ++ node :: post)).
    { apply nodup_app_intro; [exact Hfnd | exact Hnd |].
      intros x Hx. rewrite Forall_forall in Hfree. apply (Hfree x Hx). }
    assert (HbL : Forall (fun s => 0 <= s < end_ t)
                    (firstn (Z.to_nat (reuse_head t)) (reusable t) ++ 0 :: pre ++ node :: post)).
    { apply Forall_app. split; [|exact Hall].
      apply Forall_forall. intros x Hx. rewrite Forall_forall in Hfree. apply (Hfree x Hx). }
    pose proof (nodup_slots_length _ (end_ t) ltac:(lia) HdL HbL) as HL.
    rewrite length_app, length_firstn in HL. cbn [length] in HL.
    rewrite length_app in HL. cbn [length] in HL. lia. }
  (* the old links around [node] *)
  assert (Hpath : 0 :: (pre ++ node :: post) ++ [0] = (A' ++ [p]) ++ node :: np :: B').
  { rewrite <- E, <- Hb. cbn [app]. rewrite <- app_assoc. reflexivity. }
  rewrite Hpath in Hlk.
  apply linked_app in Hlk as [HlA HlB].
  pose proof (linked_prefix _ _ (A' ++ [p]) [node] HlA) as HlA'.
  rewrite <- app_assoc in HlA. cbn [app] in HlA.
  apply linked_app in HlA as [_ Hpn]. cbn [linked] in Hpn. destruct Hpn as [HNp [HPn _]].
  apply linked_cons2 in HlB as [HNn [HPnp HlB]].
  (* run the writes *)
  unfold linked_list_remove.
  rewrite (arr_get_ok (previous t) node) by lia. rewrite HPn. cbn [bind].
  rewrite (arr_get_ok (next t) node) by lia. rewrite HNn. cbn [bind].
  rewrite (arr_set_ok (next t) p np) by lia.
  cbn [bind set_values set_next set_previous values next previous].
  assert (Hl1 : length (upd (next t) p np) = length (next t)) by (apply upd_length; lia).
  rewrite (arr_get_ok (upd (next t) p np) node) by lia.
  rewrite (nth_upd_other _ p np node) by lia. rewrite HNn. cbn [bind].
  rewrite (arr_get_ok (previous t) node) by lia. rewrite HPn. cbn [bind].
  rewrite (arr_set_ok (previous t) np p) by lia.
  cbn [bind set_values set_next set_previous values next previous].
  assert (Hl2 : length (upd (previous t) np p) = length (previous t)) by (apply upd_length; lia).
  unfold linked_list_unuse.
  cbn [set_reuse_head set_reusable set_next set_previous reuse_head reusable next previous].
  destruct (Z.ltb_spec node 0) as [Hneg|_]; [lia|].
  rewrite (arr_set_ok (reusable t) (reuse_head t) node) by lia.
  cbn [bind set_reuse_head set_reusable set_next set_previous reuse_head reusable next previous].
  rewrite (arr_set_ok (upd (next t) p np) node LINKED_LIST_UNUSED) by lia.
  cbn [bind set_next set_previous next previous].
  rewrite (arr_set_ok (upd (previous t) np p) node LINKED_LIST_UNUSED) by lia.
  cbn [bind snd].
  eexists. split; [reflexivity|].
  assert (HN' : forall s, 0 <= s -> s <> p -> s <> node ->
            nth (Z.to_nat s) (upd (upd (next t) p np) node LINKED_LIST_UNUSED) 0 =
            nth (Z.to_nat s) (next t) 0).
  { intros s Hs H1 H2. rewrite nth_upd_other by lia. apply nth_upd_other; lia. }
  assert (HP' : forall s, 0 <= s -> s <> np -> s <> node ->
            nth (Z.to_nat s) (upd (upd (previous t) np p) node LINKED_LIST_UNUSED) 0 =
            nth (Z.to_nat s) (previous t) 0).
  { intros s Hs H1 H2. rewrite nth_upd_other by lia. apply nth_upd_other; lia. }
  assert (Hold : forall s, In s (0 :: pre ++ post) -> In s (0 :: pre ++ node :: post)).
  { intros s [<-|Hs]; [left; reflexivity|]. right.
    apply in_app_or in Hs as [Hs|Hs]; apply in_or_app; [left | right; right]; exact Hs. }
  assert (Hlr' : length (upd (reusable t) (reuse_head t) node) = length (reusable t))
    by (apply upd_length; lia).
  assert (Hfs : firstn (Z.to_nat (reuse_head t + 1)) (upd (reusable t) (reuse_head t) node) =
                firstn (Z.to_nat (reuse_head t)) (reusable t) ++ [node]).
  { replace (Z.to_nat (reuse_head t + 1)) with (S (Z.to_nat (reuse_head t))) by lia.
    rewrite firstn_snoc by lia. rewrite firstn_upd by lia. rewrite nth_upd_same by lia.
    reflexivity. }
  split; [|split; [reflexivity | apply nth_upd_same; lia]].
  unfold ll_repr.
  cbn [set_reuse_head set_reusable set_next set_previous reuse_head reusable next previous
       values end_ capacity].
  split; [|split; [|split; [|split; [|split; [|split; [|split; [|split; [|split;
    [|split; [|split; [|split; [|split; [|split]]]]]]]]]]]]].
  - exact Hd0.
  - apply Forall_forall. intros s Hs. apply Hin. apply Hold. exact Hs.
  - replace (0 :: (pre ++ post) ++ [0]) with ((A' ++ [p]) ++ np :: B')
      by (rewrite <- E, <- Hb; cbn [app]; rewrite <- app_assoc; reflexivity).
    apply linked_app. split.
    + rewrite <- app_assoc. cbn [app]. apply linked_app. split.
      * apply (linked_ext (next t) (previous t)); [| | exact HlA'].
        -- intros a Ha. rewrite removelast_last in Ha.
           assert (Hap : a <> p)
             by (intros ->; pose proof (NoDup_remove_2 A' [] p HdA) as Hx;
                 rewrite app_nil_r in Hx; exact (Hx Ha)).
           assert (HaI : In a (0 :: pre)) by (rewrite E; apply in_or_app; left; exact Ha).
           assert (Han : a <> node) by (intros ->; apply Hnout; apply in_or_app; left; exact HaI).
           pose proof (Hin a (Hin_pre a HaI)). apply HN'; lia.
        -- intros b Hb'. rewrite <- E in Hb'. cbn [tl] in Hb'.
           assert (Hbnp : b <> np).
           { intros ->. apply (nodup_disj pre (post ++ [0]) np Hd2 Hb'). exact Hnpin. }
           assert (Hbn : b <> node)
             by (intros ->; apply Hnout; right; apply in_or_app; left; exact Hb').
           pose proof (Hin b (Hin_pre b (or_intror Hb'))). apply HP'; lia.
      * apply linked_cons2. split; [|split; [|exact I]].
        -- rewrite nth_upd_other by lia. apply nth_upd_same. lia.
        -- rewrite nth_upd_other by lia. apply nth_upd_same. lia.
    + apply (linked_ext (next t) (previous t)); [| | exact HlB].
      * intros a Ha. rewrite <- Hb, removelast_last in Ha.
        assert (Hap : a <> p).
        { intros ->. apply (nodup_disj (0 :: pre) post p Hd0 Hpin). exact Ha. }
        assert (Han : a <> node) by (intros ->; apply Hnout; apply in_or_app; right; exact Ha).
        pose proof (Hin a (Hin_post a (in_or_app _ _ _ (or_introl Ha)))). apply HN'; lia.
      * intros b Hb'. cbn [tl] in Hb'.
        assert (Hbnp : b <> np) by (intros ->; inversion HdB; contradiction).
        assert (HbI : In b (post ++ [0])) by (rewrite Hb; right; exact Hb').
        assert (Hbn : b <> node).
        { intros ->. apply in_app_or in HbI as [H|[H|[]]].
          - apply Hnout. apply in_or_app. right. exact H.
          - apply Hnout. left. exact H. }
        pose proof (Hin b (Hin_post b HbI)). apply HP'; lia.
  - rewrite <- Hv, !map_app. cbn [map].
    destruct (firstn_skipn_app (map (fun s => nth (Z.to_nat s) (values t) 0) pre)
                (nth (Z.to_nat node) (values t) 0 :: map (fun s => nth (Z.to_nat s) (values t) 0) post))
      as [Hf _].
    pose proof (skipn_app_cons (map (fun s => nth (Z.to_nat s) (values t) 0) pre)
                  (map (fun s => nth (Z.to_nat s) (values t) 0) post)
                  (nth (Z.to_nat node) (values t) 0)) as Hs.
    rewrite length_map in Hf, Hs. rewrite Hf, Hs. reflexivity.
  - intros s Hs Hsn.
    destruct (Z.eq_dec s node) as [->|Hs1]; [apply nth_upd_same; lia|].
    assert (Hs2 : ~ In s (0 :: pre ++ node :: post)).
    { intros H. apply in_middle with (l1 := 0 :: pre) in H as [H|H]; [contradiction|].
      apply Hsn. exact H. }
    assert (Hs3 : s <> p) by (intros ->; apply Hs2; apply Hin_pre; exact Hpin).
    rewrite HN' by lia. apply Hun; assumption.
  - lia.
  - rewrite Hfs. apply Forall_app. split.
    + apply Forall_forall. intros s Hs. rewrite Forall_forall in Hfree.
      destruct (Hfree s Hs) as [Hs1 Hs2]. split; [exact Hs1|].
      intros Hs3. apply Hs2. apply Hold. exact Hs3.
    + constructor; [|constructor]. split; [exact Hnb | exact Hnout].
  - rewrite Hfs. apply nodup_rotate. constructor; [|exact Hfnd].
    intros H. rewrite Forall_forall in Hfree. apply (Hfree node H). exact Hnode_in.
  - rewrite Hlr'. lia.
  - exact Hend.
  - exact Hcap.
  - exact Hlv.
  - rewrite upd_length by lia. lia.
  - rewrite upd_length by lia. lia.
  - rewrite Hlr'. exact Hlr.
Qed.



Lemma walk_ring (t : linked_list) (l : list Z) : forall f,
  (length l <= f)%nat ->
  linked (next t) (previous t) (l ++ [0]) ->
  Forall (fun s => 0 < s /\ s < Z.of_nat (length (values t)) /\ s < Z.of_nat (length (next t))) l ->
  walk f t (hd 0 (l ++ [0])) = map (fun s => nth (Z.to_nat s) (values t) 0) l.
Proof.
  induction l as [|a l IH]; intros f Hf Hlk Hb.
  - destruct f; reflexivity.
  - destruct f as [|f]; [cbn in Hf; lia|].
    inversion Hb as [|? ? Ha Hb']; subst.
    assert (Hl : exists b l', l ++ [0] = b :: l')
      by (destruct l as [|x l]; [exists 0, []; reflexivity | exists x, (l ++ [0]); reflexivity]).
    destruct Hl as [b [l' Hl]].
    cbn [app hd walk map].
    destruct (Z.eqb_spec a 0) as [Ha0|_]; [lia|].
    rewrite !arr_get_ok by lia.
    cbn [app] in Hlk. rewrite Hl in Hlk.
    apply linked_cons2 in Hlk as [HN [_ Hlk]].
    rewrite HN. f_equal.
    replace b with (hd 0 (l ++ [0])) by (rewrite Hl; reflexivity).
    apply IH.
    + cbn in Hf. lia.
    + rewrite Hl. exact Hlk.
    + exact Hb'.
Qed.

(** On a well-formed list, [traversal] (the walk from the sentinel along
    [next]) lists exactly the values of the ring, in order. *)
Theorem ll_repr_traversal (t : linked_list) (ring vals : list Z) :
  ll_repr t ring vals -> traversal t = vals.
Proof.
  intros [Hnd [Hall [Hlk [Hv [Hun [Hrh [Hfree [Hfnd [Hrl [Hend [Hcap [Hlv [Hln [Hlp Hlr]]]]]]]]]]]]]].
  assert (Hin : forall s, In s (0 :: ring) -> 0 <= s < end_ t)
    by (rewrite Forall_forall in Hall; exact Hall).
  pose proof (Hin 0 (or_introl eq_refl)) as H0.
  pose proof (nodup_slots_length _ (end_ t) ltac:(lia) Hnd Hall) as Hlen. cbn [length] in Hlen.
  unfold traversal. rewrite arr_get_ok by lia.
  assert (Hb : exists b l', ring ++ [0] = b :: l')
    by (destruct ring as [|x l]; [exists 0, []; reflexivity | exists x, (l ++ [0]); reflexivity]).
  destruct Hb as [b [l' Hb]].
  change (0 :: ring ++ [0]) with (0 :: (ring ++ [0])) in Hlk. rewrite Hb in Hlk.
  apply linked_cons2 in Hlk as [HN [_ Hlk]]. rewrite HN.
  replace b with (hd 0 (ring ++ [0])) by (rewrite Hb; reflexivity).
  rewrite <- Hv. apply walk_ring.
  - lia.
  - rewrite Hb. exact Hlk.
  - apply Forall_forall. intros s Hs.
    pose proof (Hin s (or_intror Hs)).
    assert (s <> 0) by (intros ->; inversion Hnd; contradiction). lia.
Qed.

Lemma repr_neighbours (t : linked_list) (pre post vals : list Z) (node : Z) :
  ll_repr t (pre ++ node :: post) vals ->
  nth (Z.to_nat (last (0 :: pre) 0)) (next t) 0 = node /\
  nth (Z.to_nat node) (previous t) 0 = last (0 :: pre) 0 /\
  nth (Z.to_nat node) (next t) 0 = hd 0 (post ++ [0]) /\
  nth (Z.to_nat (hd 0 (post ++ [0]))) (previous t) 0 = node /\
  node <> last (0 :: pre) 0 /\ node <> hd 0 (post ++ [0]) /\
  0 <= last (0 :: pre) 0 < capacity t /\ 0 <= node < capacity t /\
  0 <= hd 0 (post ++ [0]) < capacity t.
Proof.
  intros [Hnd [Hall [Hlk [Hv [Hun [Hrh [Hfree [Hfnd [Hrl [Hend [Hcap [Hlv [Hln [Hlp Hlr]]]]]]]]]]]]]].
  assert (Hne0 : 0 :: pre <> []) by discriminate.
  destruct (exists_last Hne0) as [A' [p E]].
  assert (Hlast : last (0 :: pre) 0 = p) by (rewrite E; apply last_last).
  assert (Hb : exists np B', post ++ [0] = np :: B')
    by (destruct post as [|x l]; [exists 0, []; reflexivity | exists x, (l ++ [0]); reflexivity]).
  destruct Hb as [np [B' Hb]].
  assert (Hhd : hd 0 (post ++ [0]) = np) by (rewrite Hb; reflexivity).
  rewrite Hlast, Hhd.
  assert (Hin : forall s, In s (0 :: pre ++ node :: post) -> 0 <= s < end_ t)
    by (rewrite Forall_forall in Hall; exact Hall).
  assert (Hpin : In p (0 :: pre ++ node :: post)).
  { assert (H : In p (0 :: pre)) by (rewrite E; apply in_or_app; right; left; reflexivity).
    destruct H as [<-|H]; [left; reflexivity | right; apply in_or_app; left; exact H]. }
  assert (Hnpin : In np (0 :: pre ++ node :: post)).
  { assert (H : In np (post ++ [0])) by (rewrite Hb; left; reflexivity).
    apply in_app_or in H as [H|[<-|[]]]; [|left; reflexivity].
    right. apply in_or_app. right. right. exact H. }
  assert (Hnin : In node (0 :: pre ++ node :: post))
    by (right; apply in_or_app; right; left; reflexivity).
  pose proof (Hin _ Hpin). pose proof (Hin _ Hnpin). pose proof (Hin _ Hnin).
  assert (Hd1 : NoDup ((0 :: pre) ++ node :: post)) by exact Hnd.
  assert (Hnout : ~ In node ((0 :: pre) ++ post)) by exact (NoDup_remove_2 _ _ _ Hd1).
  assert (Hpath : 0 :: (pre ++ node :: post) ++ [0] = (A' ++ [p]) ++ node :: np :: B').
  { rewrite <- E, <- Hb. cbn [app]. rewrite <- app_assoc. reflexivity. }
  rewrite Hpath in Hlk.
  apply linked_app in Hlk as [HlA HlB].
  rewrite <- app_assoc in HlA. cbn [app] in HlA.
  apply linked_app in HlA as [_ Hpn]. cbn [linked] in Hpn. destruct Hpn as [HNp [HPn _]].
  apply linked_cons2 in HlB as [HNn [HPnp _]].
  repeat split; try assumption; try lia.
  - intros ->. apply Hnout. rewrite E. apply in_or_app. left. apply in_or_app. right. left. reflexivity.
  - intros ->. assert (H' : In np (post ++ [0])) by (rewrite Hb; left; reflexivity).
    apply in_app_or in H' as [H'|[H'|[]]].
    + apply Hnout. apply in_or_app. right. exact H'.
    + apply Hnout. left. exact H'.
Qed.

Lemma unuse_returns (t : linked_list) (node : Z) :
  (r <- (r0 <- linked_list_unuse t node ;; Ok (snd r0)) ;; Ok (node, r)) =
  linked_list_unuse t node.
Proof.
  unfold linked_list_unuse. destruct (node <? 0); [reflexivity|].
  repeat (match goal with |- context [arr_set ?a ?i ?v] => destruct (arr_set a i v) end;
          cbn [bind snd]).
  all: reflexivity.
Qed.

(** On a well-formed list, [linked_list_remove_after] applied to the
    predecessor of a slot of the ring does exactly what
    [linked_list_remove] of that slot does, and returns the slot. *)
Theorem linked_list_remove_after_remove (t : linked_list) (pre post vals : list Z) (node : Z) :
  ll_repr t (pre ++ node :: post) vals ->
  linked_list_remove_after t (last (0 :: pre) 0) =
  (r <- linked_list_remove t node ;; Ok (node, r)).
Proof.
  intros Hr. pose proof Hr as [_ [_ [_ [_ [_ [_ [_ [_ [_ [_ [_ [_ [Hln [Hlp _]]]]]]]]]]]]]].
  destruct (repr_neighbours t pre post vals node Hr)
    as [HNp [HPn [HNn [HPnp [Hnp [Hnnp [Hpb [Hnb Hnpb]]]]]]]].
  set (p := last (0 :: pre) 0) in *. set (np := hd 0 (post ++ [0])) in *.
  clearbody p np.
  unfold linked_list_remove_after, linked_list_remove.
  rewrite (arr_get_ok (next t) p), HNp by lia.
  rewrite (arr_get_ok (previous t) node), HPn by lia.
  cbn [bind].
  rewrite (arr_get_ok (next t) node), HNn by lia. cbn [bind].
  rewrite (arr_set_ok (next t) p np) by lia. cbn [bind set_next next previous].
  rewrite (arr_get_ok (upd (next t) p np) node) by (rewrite upd_length; lia).
  rewrite (nth_upd_other (next t) p np node), HNn by lia. cbn [bind].
  rewrite (arr_get_ok (previous t) node), HPn by lia. cbn [bind].
  rewrite (arr_set_ok (previous t) np p) by lia. cbn [bind set_previous previous].
  symmetry. apply unuse_returns.
Qed.

(** On a well-formed list, [linked_list_remove_before] applied to the
    successor of a slot of the ring does exactly what
    [linked_list_remove] of that slot does, and returns the slot. *)
Theorem linked_list_remove_before_remove (t : linked_list) (pre post vals : list Z) (node : Z) :
  ll_repr t (pre ++ node :: post) vals ->
  linked_list_remove_before t (hd 0 (post ++ [0])) =
  (r <- linked_list_remove t node ;; Ok (node, r)).
Proof.
  intros Hr. pose proof Hr as [_ [_ [_ [_ [_ [_ [_ [_ [_ [_ [_ [_ [Hln [Hlp _]]]]]]]]]]]]]].
  destruct (repr_neighbours t pre post vals node Hr)
    as [HNp [HPn [HNn [HPnp [Hnp [Hnnp [Hpb [Hnb Hnpb]]]]]]]].
  set (p := last (0 :: pre) 0) in *. set (np := hd 0 (post ++ [0])) in *.
  clearbody p np.
  unfold linked_list_remove_before, linked_list_remove.
  rewrite (arr_get_ok (previous t) np), HPnp by lia. cbn [bind].
  rewrite (arr_get_ok (previous t) node), HPn by lia. cbn [bind].
  rewrite (arr_set_ok (previous t) np p) by lia. cbn [bind set_previous set_next next previous].
  rewrite (arr_get_ok (upd (previous t) np p) node) by (rewrite upd_length; lia).
  rewrite (nth_upd_other (previous t) np p node), HPn by lia. cbn [bind].
  rewrite (arr_set_ok (next t) p np) by lia.
  rewrite (arr_get_ok (next t) node), HNn by lia. cbn [bind set_next next previous].
  rewrite (arr_set_ok (next t) p np) by lia. cbn [bind set_next next previous].
  rewrite (arr_get_ok (upd (next t) p np) node) by (rewrite upd_length; lia).
  rewrite (nth_upd_other (next t) p np node), HNn by lia. cbn [bind].
  rewrite (arr_get_ok (previous t) node), HPn by lia. cbn [bind].
  try rewrite (arr_set_ok (previous t) np p) by lia. cbn [bind set_previous set_next previous].
  symmetry. apply unuse_returns.
Qed.

(** The ring 0 -> 1 -> 2 -> 0 of [ll_three] is a well-formed list. *)
Lemma ll_three_repr : ll_repr ll_three [1; 2] [10; 20].
Proof.
  unfold ll_repr, ll_three.
  cbn [capacity end_ reuse_head reusable values next previous].
  split; [|split; [|split; [|split; [|split; [|split; [|split; [|split; [|split;
    [|split; [|split; [|split; [|split; [|split]]]]]]]]]]]]].
  - repeat constructor; intros H; repeat (destruct H as [H|H]; [discriminate H|]); exact H.
  - repeat constructor; lia.
  - repeat split.
  - reflexivity.
  - intros s Hs Hn. exfalso. apply Hn.
    assert (Hs3 : s = 0 \/ s = 1 \/ s = 2) by lia.
    destruct Hs3 as [-> | [-> | ->]]; cbn; tauto.
  - lia.
  - constructor.
  - constructor.
  - cbn. lia.
  - lia.
  - lia.
  - reflexivity.
  - reflexivity.
  - reflexivity.
  - reflexivity.
Qed.


Lemma linked_list_insert_after_repr_witness :
  ll_repr ll_three ([1] ++ [2]) [10; 20] /\
  exists node t',
    linked_list_insert_after [] ll_three 30 (last (0 :: [1]) 0) = Ok (node, t') /\
    ~ In node (0 :: [1] ++ [2]) /\
    ll_repr t' ([1] ++ node :: [2])
            (firstn (length [1]) [10; 20] ++ 30 :: skipn (length [1]) [10; 20]).
Proof.
  split; [exact ll_three_repr|].
  apply (linked_list_insert_after_repr ll_three ([1] ++ [2]) [10; 20] [1] [2] 30).
  - exact ll_three_repr.
  - reflexivity.
  - cbn. lia.
Defined.

Lemma linked_list_remove_repr_witness :
  ll_repr ll_three ([1] ++ 2 :: []) [10; 20] /\
  exists t', linked_list_remove ll_three 2 = Ok t' /\
    ll_repr t' ([1] ++ []) (firstn (length [1]) [10; 20] ++ skipn (S (length [1])) [10; 20]) /\
    reuse_head t' = reuse_head ll_three + 1 /\
    nth (Z.to_nat (reuse_head ll_three)) (reusable t') 0 = 2.
Proof.
  split; [exact ll_three_repr|].
  apply (linked_list_remove_repr ll_three [1] [] [10; 20] 2). exact ll_three_repr.
Defined.

Lemma ll_repr_traversal_witness :
  ll_repr ll_three [1; 2] [10; 20] /\ traversal ll_three = [10; 20].
Proof. split; [exact ll_three_repr | apply (ll_repr_traversal ll_three [1; 2]); exact ll_three_repr]. Defined.

Lemma linked_list_remove_after_remove_witness :
  ll_repr ll_three ([] ++ 1 :: [2]) [10; 20] /\
  linked_list_remove_after ll_three (last (0 :: []) 0) =
  (r <- linked_list_remove ll_three 1 ;; Ok (1, r)).
Proof.
  split; [exact ll_three_repr|].
  apply (linked_list_remove_after_remove ll_three [] [2] [10; 20] 1). exact ll_three_repr.
Defined.

Lemma linked_list_remove_before_remove_witness :
  ll_repr ll_three ([] ++ 1 :: [2]) [10; 20] /\
  linked_list_remove_before ll_three (hd 0 ([2] ++ [0])) =
  (r <- linked_list_remove ll_three 1 ;; Ok (1, r)).
Proof.
  split; [exact ll_three_repr|].
  apply (linked_list_remove_before_remove ll_three [] [2] [10; 20] 1). exact ll_three_repr.
Defined.

End LinkedListExtra.
